(** * ubelt.util_cmd: running a command, teeing and capturing its output

    A shallow embedding of [src/ubelt/util_cmd.py] and the properties of
    its line source, its two stream multiplexers, the tee controller and
    the command executor.

    Modelling choices, used throughout:
    - a text stream of the child process is the text the reader has not
      consumed yet (everything the child will ever write on it); a
      blocking [readline] returns the next line, and [""] only at the end
      of the stream;
    - what the operating system decides (how often [poll] still answers
      [None], which descriptors [select] reports, whether a queue already
      holds the next item when the foreground looks) is an explicit
      schedule given to the functions, and the theorems hold for every
      schedule;
    - effects (launching the process, writing to the forward sinks,
      printing) are recorded in a trace, exceptions are results. *)

From Stdlib Require Import String Ascii ZArith List Lia.
From stdpp Require Import base option list strings gmap.
From Equations Require Import Equations.

Local Open Scope string_scope.
#[local] Arguments String.append !_ _ / : simpl nomatch.

(** ** Text streams and the line source *)

Definition newline : ascii := "010"%char.

(** [stream.readline()]: the text up to and including the first newline,
    or all the remaining text when it holds no newline; the second
    component is the stream afterwards.  [""] is returned at the end of
    the stream only. *)
Fixpoint readline (stream : string) : string * string :=
  match stream with
  | EmptyString => (EmptyString, EmptyString)
  | String c rest =>
      if Ascii.eqb c newline then (String c EmptyString, rest)
      else let '(line, rest') := readline rest in (String c line, rest')
  end.

Definition inspect {A : Type} (a : A) : {b : A | a = b} := exist _ a eq_refl.

(** [_textio_iterlines]: read lines until [readline] returns [""].  The
    generator is run to exhaustion: the result is the lines it yields, in
    order, and the stream it leaves behind. *)
Equations? _textio_iterlines (stream : string) : list string * string
  by wf (String.length stream) lt :=
  _textio_iterlines stream with inspect (readline stream) := {
    | exist _ (EmptyString, rest) _ => ([], rest)
    | exist _ (String c l, rest) e with _textio_iterlines rest := {
        | (lines, final) => (String c l :: lines, final) } }.
Proof.
  assert (forall s line r, readline s = (line, r) -> line <> "" ->
                           (String.length r < String.length s)%nat) as shorter.
  { clear. induction s as [|a s IH]; intros line r H Hne; simpl in H.
    - injection H as <- <-. congruence.
    - destruct (Ascii.eqb a newline).
      + injection H as <- <-. simpl. lia.
      + destruct (readline s) as [l' r'] eqn:E. injection H as <- <-.
        destruct s as [|b s'].
        * simpl in E. injection E as <- <-. simpl. lia.
        * assert (l' <> "") as Hl.
          { simpl in E. destruct (Ascii.eqb b newline).
            - injection E as <- _. congruence.
            - destruct (readline s'). injection E as <- _. congruence. }
          specialize (IH l' r' eq_refl Hl). simpl in *. lia. }
  apply (shorter stream (String c l) rest e). congruence.
Qed.

(** [''.join(lines)] *)
Definition join (lines : list string) : string := String.concat "" lines.

(** The one-character text of an empty line. *)
Definition nl : string := String newline "".

(** ** The child process

    A started process: the text not yet read from its two pipes and the
    exit code it ends with. *)
Record process := {
  proc_stdout : string;
  proc_stderr : string;
  returncode : Z
}.

(** The descriptors of the two pipes of a process, [proc.stdout.fileno()]
    and [proc.stderr.fileno()]: two different descriptors. *)
Inductive fileno := stdout_fileno | stderr_fileno.

Definition fileno_eqb (a b : fileno) : bool :=
  match a, b with
  | stdout_fileno, stdout_fileno => true
  | stderr_fileno, stderr_fileno => true
  | _, _ => false
  end.

Definition set_streams (proc : process) (out err : string) : process :=
  {| proc_stdout := out; proc_stderr := err; returncode := returncode proc |}.

(** [proc.communicate()]: everything left on the two pipes. *)
Definition communicate (proc : process) : (string * string) * process :=
  ((proc_stdout proc, proc_stderr proc), set_streams proc "" "").

(** [proc.wait()] *)
Definition wait (proc : process) : Z := returncode proc.

(** What the operating system decides during one run. *)
Record schedule := {
  (** how many times [proc.poll()] answers [None] to each worker *)
  out_polls : nat;
  err_polls : nat;
  (** for each item a worker puts, how many times [get_nowait] finds the
      queue empty before the item is there *)
  out_waits : list nat;
  err_waits : list nat;
  (** whether [select] finds stdout ready, and stderr ready, at each
      wake-up; there is one wake-up for each time [proc.poll()] answers
      [None] to the loop *)
  wakeups : list (bool * bool)
}.

(** One output of a multiplexer: [(oline, eline)], [None] for Python's
    [None]. *)
Definition merge_record : Type := option string * option string.

(** ** The thread-based multiplexer *)

(** The first loop of [enqueue_output]: one [readline] and one [put] for
    each time the process is found running.  The result is the items put,
    in order, and the stream afterwards. *)
Fixpoint enqueue_live (polls : nat) (stream : string)
  : list (option string) * string :=
  match polls with
  | O => ([], stream)
  | S k =>
      let '(line, rest) := readline stream in
      let '(puts, final) := enqueue_live k rest in
      (Some line :: puts, final)
  end.

(** [enqueue_output]: the live loop, the remaining lines, then [None]. *)
Definition enqueue_output (polls : nat) (stream : string)
  : list (option string) * string :=
  let '(live, rest) := enqueue_live polls stream in
  let '(lines, final) := _textio_iterlines rest in
  ((live ++ map Some lines ++ [None])%list, final).

(** A stream queue as its single consumer sees it: the items its worker
    puts that have not been taken yet, and the waits of the schedule. *)
Record Queue := {
  puts : list (option string);
  waits : list nat
}.

(** [_proc_async_iter_stream]: start the worker and return its queue. *)
Definition _proc_async_iter_stream (polls : nat) (delays : list nat)
    (stream : string) : Queue * string :=
  let '(items, final) := enqueue_output polls stream in
  ({| puts := items; waits := delays |}, final).

(** [stream_queue.get_nowait()]: [None] stands for [queue.Empty]. *)
Definition get_nowait (q : Queue) : option (option string) * Queue :=
  match puts q with
  | [] => (None, q)
  | item :: later =>
      match waits q with
      | S k :: ws => (None, {| puts := puts q; waits := k :: ws |})
      | O :: ws => (Some item, {| puts := later; waits := ws |})
      | [] => (Some item, {| puts := later; waits := [] |})
      end
  end.

Definition is_not_none (x : option string) : bool :=
  match x with Some _ => true | None => false end.

(** The variables of the merge loop of [_proc_iteroutput_thread]. *)
Record merge_state := {
  stdout_queue : Queue;
  stderr_queue : Queue;
  stdout_live : bool;
  stderr_live : bool;
  oline : option string;
  eline : option string
}.

(** One side of an iteration: [if live: try: line = q.get_nowait();
    live = line is not None; except queue.Empty: line = None]. *)
Definition poll_side (live : bool) (q : Queue) (line : option string)
  : Queue * bool * option string :=
  if live then
    match get_nowait q with
    | (Some item, q') => (q', is_not_none item, item)
    | (None, q') => (q', live, None)
    end
  else (q, live, line).

(** One iteration of the merge loop: the state afterwards and the record
    it yields, if any. *)
Definition merge_iteration (st : merge_state)
  : merge_state * option merge_record :=
  let '(qo, olive, ol) := poll_side (stdout_live st) (stdout_queue st) (oline st) in
  let '(qe, elive, el) := poll_side (stderr_live st) (stderr_queue st) (eline st) in
  ({| stdout_queue := qo; stderr_queue := qe;
      stdout_live := olive; stderr_live := elive;
      oline := ol; eline := el |},
   if is_not_none ol || is_not_none el then Some (ol, el) else None).

(** [while stdout_live or stderr_live]: the records yielded, and whether
    the loop has ended within [fuel] iterations. *)
Fixpoint merge_loop (fuel : nat) (st : merge_state)
  : list merge_record * bool :=
  if stdout_live st || stderr_live st then
    match fuel with
    | O => ([], false)
    | S k =>
        let '(st', yielded) := merge_iteration st in
        let '(records, ended) := merge_loop k st' in
        (match yielded with
         | Some r => r :: records
         | None => records
         end, ended)
    end
  else ([], true).

(** The iterations a queue can keep the loop busy. *)
Definition queue_work (q : Queue) : nat :=
  (length (puts q) + list_sum (waits q))%nat.

(** The state in which the merge loop starts.  [oline] and [eline] are
    unbound in the source until the first iteration assigns them, which it
    does as both streams start live. *)
Definition merge_start (qo qe : Queue) : merge_state :=
  {| stdout_queue := qo; stderr_queue := qe;
     stdout_live := true; stderr_live := true;
     oline := None; eline := None |}.

(** [_proc_iteroutput_thread]: the records yielded, whether the generator
    ends, and the process afterwards.  The loop is given as many
    iterations as the two queues can keep it busy; it always ends within
    them (lemma [thread_captures]). *)
Definition _proc_iteroutput_thread (sched : schedule) (proc : process)
  : list merge_record * bool * process :=
  let '(qo, out) :=
    _proc_async_iter_stream (out_polls sched) (out_waits sched) (proc_stdout proc) in
  let '(qe, err) :=
    _proc_async_iter_stream (err_polls sched) (err_waits sched) (proc_stderr proc) in
  let '(records, ended) :=
    merge_loop (queue_work qo + queue_work qe) (merge_start qo qe) in
  (records, ended, set_streams proc out err).

(** ** The select-based multiplexer *)

(** [select.select(reads, [], [])[0]]: the descriptors of [reads] that
    are ready, in the order of [reads]. *)
Definition select (reads : list fileno) (ready : bool * bool) : list fileno :=
  List.filter (fun fd => match fd with
                         | stdout_fileno => fst ready
                         | stderr_fileno => snd ready
                         end) reads.

(** [for fd in ret[0]]: one [readline] on each stream reported ready. *)
Fixpoint select_readlines (ret0 : list fileno) (proc : process)
    (oline eline : option string) : process * option string * option string :=
  match ret0 with
  | [] => (proc, oline, eline)
  | fd :: later =>
      let '(proc1, oline1) :=
        if fileno_eqb fd stdout_fileno then
          let '(line, rest) := readline (proc_stdout proc) in
          (set_streams proc rest (proc_stderr proc), Some line)
        else (proc, oline) in
      let '(proc2, eline1) :=
        if fileno_eqb fd stderr_fileno then
          let '(line, rest) := readline (proc_stderr proc1) in
          (set_streams proc1 (proc_stdout proc1) rest, Some line)
        else (proc1, eline) in
      select_readlines later proc2 oline1 eline1
  end.

(** [while proc.poll() is None]: one record for each wake-up. *)
Fixpoint select_live (wakes : list (bool * bool)) (proc : process)
  : list merge_record * process :=
  match wakes with
  | [] => ([], proc)
  | ready :: later =>
      let reads := [stdout_fileno; stderr_fileno] in
      let ret0 := select reads ready in
      let '(proc1, oline, eline) := select_readlines ret0 proc None None in
      let '(records, final) := select_live later proc1 in
      ((oline, eline) :: records, final)
  end.

(** [itertools.zip_longest] with its default fill value [None]. *)
Fixpoint zip_longest {A B : Type} (xs : list A) (ys : list B)
  : list (option A * option B) :=
  match xs, ys with
  | [], _ => map (fun y => (None, Some y)) ys
  | _, [] => map (fun x => (Some x, None)) xs
  | x :: xs', y :: ys' => (Some x, Some y) :: zip_longest xs' ys'
  end.

(** The part of [_proc_iteroutput_select] after the process has ended. *)
Definition select_drain (proc : process) : list merge_record * process :=
  let '(olines, out) := _textio_iterlines (proc_stdout proc) in
  let '(elines, err) := _textio_iterlines (proc_stderr proc) in
  (zip_longest olines elines, set_streams proc out err).

(** [_proc_iteroutput_select]; this generator always ends. *)
Definition _proc_iteroutput_select (sched : schedule) (proc : process)
  : list merge_record * bool * process :=
  let '(live, proc1) := select_live (wakeups sched) proc in
  let '(rest, final) := select_drain proc1 in
  ((live ++ rest)%list, true, final).

(** ** Effects

    A computation has a trace of the events it causes and an outcome: a
    value, an exception, or no return at all. *)

Inductive side := Out | Err.

(** [Write Out text] is a call [stdout.write(text)] on the sink passed for
    stdout, [Write Err text] a call [stderr.write(text)] on the sink
    passed for stderr; the same for [Flush].  The sinks of the two sides
    are two objects, as [sys.stdout] and [sys.stderr] are in [cmd]: the
    trace keeps the calls on each apart. *)
Inductive event :=
| Launch
| Write (sd : side) (text : string)
| Flush (sd : side)
| Print (text : string)
| Warn (text : string).

Inductive exn :=
| ValueError (msg : string)
| NotImplementedError (msg : string)
| TypeError (msg : string)
| OSError (msg : string).

Inductive outcome (A : Type) :=
| Returned (a : A)
| Raised (e : exn)
| Hangs.
Arguments Returned {A} a.
Arguments Raised {A} e.
Arguments Hangs {A}.

Definition M (A : Type) : Type := list event * outcome A.

Definition ret {A : Type} (a : A) : M A := ([], Returned a).

Definition bind {A B : Type} (c : M A) (k : A -> M B) : M B :=
  match c with
  | (t, Returned a) => let '(t', r) := k a in ((t ++ t')%list, r)
  | (t, Raised e) => (t, Raised e)
  | (t, Hangs) => (t, Hangs)
  end.

Definition raise {A : Type} (e : exn) : M A := ([], Raised e).
Definition hang {A : Type} : M A := ([], Hangs).
Definition emit (ev : event) : M unit := ([ev], Returned tt).
Definition when (b : bool) (c : M unit) : M unit := if b then c else ret tt.

Notation "'let*' x ':=' c 'in' k" := (bind c (fun x => k))
  (at level 10, x pattern, c at level 100, k at level 200, only parsing).

(** ** The tee controller *)

(** A multiplexer: the records it yields, whether it ends, and the
    process afterwards. *)
Definition multiplexer : Type :=
  schedule -> process -> list merge_record * bool * process.

(** [if sink: sink.write(line); sink.flush()] *)
Definition forward (sd : side) (sink : bool) (line : string) : M unit :=
  when sink (let* _ := emit (Write sd line) in emit (Flush sd)).

(** [if line: forward; logged.append(line)]: [None] and [""] are false. *)
Definition tee_side (sd : side) (sink : bool) (line : option string)
    (logged : list string) : M (list string) :=
  match line with
  | Some (String c l) =>
      let* _ := forward sd sink (String c l) in
      ret (logged ++ [String c l])%list
  | _ => ret logged
  end.

(** [for oline, eline in _proc_iteroutput(proc)] *)
Fixpoint tee_records (stdout stderr : bool) (records : list merge_record)
    (logged_out logged_err : list string) : M (list string * list string) :=
  match records with
  | [] => ret (logged_out, logged_err)
  | (oline, eline) :: later =>
      let* logged_out := tee_side Out stdout oline logged_out in
      let* logged_err := tee_side Err stderr eline logged_err in
      tee_records stdout stderr later logged_out logged_err
  end.

(** The choice of the multiplexer at the start of [_tee_output]. *)
Definition choose_backend (POSIX : bool) (backend : string) : M multiplexer :=
  let backend := if (backend =? "auto")%string then "thread" else backend in
  if (backend =? "select")%string then
    if negb POSIX then
      raise (NotImplementedError "select is only available on posix")
    else ret _proc_iteroutput_select
  else if (backend =? "thread")%string then ret _proc_iteroutput_thread
  else raise (ValueError "backend must be select, thread, or auto").

(** [make_proc()]: the call is an event; the factory gives a started
    process or raises. *)
Definition call_make_proc (make_proc : exn + process) : M process :=
  let* _ := emit Launch in
  match make_proc with
  | inl e => raise e
  | inr proc => ret proc
  end.

(** [_tee_output(make_proc, stdout, stderr, backend)].  [stdout] and
    [stderr] tell whether a sink is passed: the function only tests the
    argument for truth and calls its [write] and [flush]. *)
Definition _tee_output (POSIX : bool) (make_proc : exn + process)
    (stdout stderr : bool) (backend : string) (sched : schedule)
  : M (process * list string * list string) :=
  let* _proc_iteroutput := choose_backend POSIX backend in
  let* proc := call_make_proc make_proc in
  let '(records, ended, proc') := _proc_iteroutput sched proc in
  let* (logged_out, logged_err) := tee_records stdout stderr records [] [] in
  if ended then ret (proc', logged_out, logged_err) else hang.

(** ** The command executor *)

Inductive command :=
| Text (s : string)
| Tup (l : list string).

(** The arguments [cmd] gives to [subprocess.Popen]; the pipes and
    [universal_newlines=True] are the same in every call. *)
Record popen_args := {
  args : string + list string;
  shell : bool;
  cwd : option string;
  env : option string
}.

(** What [cmd] uses from the standard library and the platform. *)
Record platform := {
  POSIX : bool;
  win32 : bool;
  quote : string -> string;
  shlex_split : string -> option (list string);
  Popen : popen_args -> exn + process;
  unicode_console : bool;
  getcwd : string;
  node : string;
  getuser : string;
  compressuser : string -> string
}.

(** [**kwargs]: the deprecated [detatch], and the names of any other
    keys. *)
Record kwargs := {
  detatch : option bool;
  unknown : list string
}.

Inductive value :=
| VStr (s : string)
| VInt (z : Z)
| VProc (p : process).

Section Cmd.
Variable sys : platform.

Definition command_text (cmd_arg : command) : string :=
  match cmd_arg with
  | Text s => s
  | Tup l => String.concat " " (map (quote sys) l)
  end.

(** What is given to [Popen] as [args]: the text for a shell (and on
    win32), otherwise the tuple, split out of the text when the command
    is a text; [shlex.split] can raise [ValueError]. *)
Definition cmd_args (cmd_arg : command) (shell : bool)
  : M (string + list string) :=
  let command_tup := match cmd_arg with Text _ => None | Tup l => Some l end in
  if shell || win32 sys then ret (inl (command_text cmd_arg))
  else
    match command_tup with
    | Some l => ret (inr l)
    | None =>
        match shlex_split sys (command_text cmd_arg) with
        | Some l => ret (inr l)
        | None => raise (ValueError "No closing quotation")
        end
    end.

(** [try: print(unicode) except Exception: print(ascii)] *)
Definition print_banner (unicode ascii : string) : M unit :=
  emit (Print (if unicode_console sys then unicode else ascii)).

(** [cmd].  Of [**kwargs], [verbout] cannot occur (it is also a named
    parameter, which the body never reads); [detatch] replaces [detach];
    any other key makes [list(kwargs.keys)] raise [TypeError] while the
    message of the [ValueError] is built. *)
Definition cmd (cmd_arg : command) (shell detach : bool) (verbose : Z)
    (tee : option bool) (cwd env : option string) (tee_backend : string)
    (kw : kwargs) (sched : schedule) : M (gmap string value) :=
  let* detach :=
    match detatch kw with
    | Some d =>
        let* _ := emit (Warn "`detatch` is deprecated (misspelled) and will be removed. Use `detach` instead") in
        ret d
    | None => ret detach
    end in
  let* _ :=
    match unknown kw with
    | [] => ret tt
    | _ :: _ => raise (TypeError "'builtin_function_or_method' object is not iterable")
    end in
  let command_text := command_text cmd_arg in
  let* args := cmd_args cmd_arg shell in
  let tee := match tee with Some b => b | None => (verbose >? 0)%Z end in
  let* _ :=
    when (verbose >? 1)%Z
      (let* _ := when (verbose >? 2)%Z
                   (print_banner "┌─── START CMD ───" "+=== START CMD ===") in
       let cwd_ := compressuser sys (match cwd with Some d => d | None => getcwd sys end) in
       let ps1 := "[ubelt.cmd] " ++ getuser sys ++ "@" ++ node sys ++ ":" ++ cwd_ ++ "$ " in
       emit (Print (ps1 ++ command_text))) in
  let make_proc :=
    Popen sys {| args := args; shell := shell; cwd := cwd; env := env |} in
  if detach then
    let* proc := call_make_proc make_proc in
    let info : gmap string value :=
      <["proc" := VProc proc]> (<["command" := VStr command_text]> ∅) in
    let* _ := when (verbose >? 0)%Z (emit (Print "...detaching")) in
    ret info
  else
    let* (proc, out, err) :=
      if tee then
        let* (proc, logged_out, logged_err) :=
          _tee_output (POSIX sys) make_proc true true tee_backend sched in
        let out := join logged_out in
        let err := join logged_err in
        let '(_, proc) := communicate proc in
        ret (proc, out, err)
      else
        let* proc := call_make_proc make_proc in
        let '((out, err), proc) := communicate proc in
        ret (proc, out, err) in
    let ret_ := wait proc in
    let info : gmap string value :=
      <["out" := VStr out]> (<["err" := VStr err]> (<["ret" := VInt ret_]>
        (<["proc" := VProc proc]> (<["command" := VStr command_text]> ∅)))) in
    let* _ := when (verbose >? 2)%Z
                (print_banner "└─── END CMD ───" "L___ END CMD ___") in
    ret info.
End Cmd.

(** ** Vocabulary of the properties *)

(** [n] successive calls of [readline]: the lines read and the stream
    afterwards. *)
Fixpoint reads (n : nat) (stream : string) : list string * string :=
  match n with
  | O => ([], stream)
  | S k =>
      let '(line, rest) := readline stream in
      let '(lines, final) := reads k rest in
      (line :: lines, final)
  end.

Fixpoint has_newline (s : string) : bool :=
  match s with
  | EmptyString => false
  | String c rest => Ascii.eqb c newline || has_newline rest
  end.

Fixpoint last_char (s : string) : option ascii :=
  match s with
  | EmptyString => None
  | String c EmptyString => Some c
  | String _ rest => last_char rest
  end.

(** A text is complete when it is empty or ends with a newline. *)
Definition complete (s : string) : Prop :=
  last_char s = None \/ last_char s = Some newline.

(** The states of the merge loop of [_proc_iteroutput_thread]: the state
    it starts in, and the state after an iteration that the loop
    condition lets in. *)
Inductive merge_reaches (start : merge_state) : merge_state -> Prop :=
| reaches_start : merge_reaches start start
| reaches_iteration (st : merge_state) :
    merge_reaches start st ->
    stdout_live st || stderr_live st = true ->
    merge_reaches start (fst (merge_iteration st)).

(** A stream that is no longer live has [None] in its line variable: the
    only assignment of [False] to the flag comes with that value. *)
Definition stale_none (st : merge_state) : Prop :=
  (stdout_live st = false -> oline st = None) /\
  (stderr_live st = false -> eline st = None).

(** A live stream takes its completion value from its queue on this
    iteration. *)
Definition takes_sentinel (live : bool) (q : Queue) : bool :=
  live && match fst (get_nowait q) with
          | Some None => true
          | _ => false
          end.

(** The values of a side that [_tee_output] takes as lines: neither
    [None] nor [""]. *)
Definition lines_of (xs : list (option string)) : list string :=
  flat_map (fun x => match x with
                     | Some (String c l) => [String c l]
                     | _ => []
                     end) xs.

(** A side of the merge loop is in order when a live stream has a queue
    fed with lines and then the completion value, and a completed stream
    has [None] in its line variable. *)
Definition side_ok (live : bool) (q : Queue) (line : option string) : Prop :=
  if live then exists ls : list string, puts q = (map Some ls ++ [None])%list
  else line = None.

(** The lines a side has still to deliver, and the iterations it can
    still take. *)
Definition side_lines (live : bool) (q : Queue) : list string :=
  if live then lines_of (puts q) else [].

Definition side_work (live : bool) (q : Queue) : nat :=
  if live then queue_work q else O.

(** What a side produces on an iteration: the line taken from its queue
    when the stream is live and the queue gives one; [None] when the
    stream has completed, when the queue is empty, and when the item
    taken is the completion value. *)
Definition side_value (live : bool) (q : Queue) : option string :=
  if live then
    match fst (get_nowait q) with
    | Some item => item
    | None => None
    end
  else None.

Definition side_eqb (a b : side) : bool :=
  match a, b with
  | Out, Out | Err, Err => true
  | _, _ => false
  end.

(** The texts written to the sink of a side, in order. *)
Definition written (sd : side) (trace : list event) : list string :=
  flat_map (fun ev => match ev with
                      | Write sd' text => if side_eqb sd sd' then [text] else []
                      | _ => []
                      end) trace.

(** The calls made on the sink of a side, in order. *)
Definition sink_calls (sd : side) (trace : list event) : list event :=
  List.filter (fun ev => match ev with
                         | Write sd' _ | Flush sd' => side_eqb sd sd'
                         | _ => false
                         end) trace.

(** Each line written, then flushed at once. *)
Definition write_flush (sd : side) (lines : list string) : list event :=
  flat_map (fun line => [Write sd line; Flush sd]) lines.

(** The events of the loop of [_tee_output] over the given records. *)
Definition forward_events (sd : side) (sink : bool) (line : option string)
  : list event :=
  match line with
  | Some (String c l) => if sink then [Write sd (String c l); Flush sd] else []
  | _ => []
  end.

Definition forward_trace (stdout stderr : bool) (records : list merge_record)
  : list event :=
  flat_map (fun r => forward_events Out stdout (fst r) ++
                     forward_events Err stderr (snd r))%list records.

(** The backends [_tee_output] accepts on a platform. *)
Definition backend_ok (POSIX : bool) (backend : string) : bool :=
  (backend =? "auto")%string || (backend =? "thread")%string ||
  ((backend =? "select")%string && POSIX).

(** A computation returns a value. *)
Definition returns {A : Type} (c : M A) (a : A) : Prop := snd c = Returned a.

(** Whether [cmd] tees: [tee], or [verbose > 0] when [tee] is not given. *)
Definition tee_on (tee : option bool) (verbose : Z) : bool :=
  match tee with Some b => b | None => (verbose >? 0)%Z end.

(** Whether [cmd] detaches: the deprecated [detatch] replaces [detach]. *)
Definition detach_on (detach : bool) (kw : kwargs) : bool :=
  match detatch kw with Some d => d | None => detach end.

(** A side of the merge loop as its queue drives it, apart from the
    variables of the loop: its queue and whether it is live after an
    iteration.  A stream that has completed is left alone; a live one
    takes what its queue gives, and completes on the completion value. *)
Definition side_after (live : bool) (q : Queue) : Queue * bool :=
  if live then
    match get_nowait q with
    | (Some item, q') => (q', is_not_none item)
    | (None, q') => (q', live)
    end
  else (q, live).

(** What the two sides produce, iteration after iteration, for as long
    as a stream is live (at most [n] iterations): one pair for each
    iteration, [None] for a side that produces nothing on it. *)
Fixpoint iterations (n : nat) (olive : bool) (qo : Queue)
    (elive : bool) (qe : Queue) : list merge_record :=
  match n with
  | O => []
  | S k =>
      if olive || elive then
        (side_value olive qo, side_value elive qe) ::
        iterations k (snd (side_after olive qo)) (fst (side_after olive qo))
                     (snd (side_after elive qe)) (fst (side_after elive qe))
      else []
  end.

(** At least one side of the pair holds a value. *)
Definition has_value (r : merge_record) : bool :=
  is_not_none (fst r) || is_not_none (snd r).

(** The text [sys.stdout] receives during a run of [cmd]: what [print]
    prints, each text followed by a newline, and what the tee writes for
    the child's stdout. *)
Definition sys_stdout_text (trace : list event) : string :=
  join (flat_map (fun ev => match ev with
                            | Write Out text => [text]
                            | Print text => [text; nl]
                            | _ => []
                            end) trace).

(** The events of the tee and of the launch: no [print], no warning. *)
Definition tee_event (ev : event) : Prop :=
  match ev with
  | Launch | Write _ _ | Flush _ => True
  | Print _ | Warn _ => False
  end.

(** ** Sample runs *)

(** A child that writes "hello" and a newline to stdout and exits 0. *)
Definition hello : process :=
  {| proc_stdout := "hello" ++ nl; proc_stderr := ""; returncode := 0 |}.

(** A schedule in which the stdout worker finds the process running three
    times, so that it reads the end of the stream twice while the process
    still runs. *)
Definition sample_sched : schedule :=
  {| out_polls := 3; err_polls := 1;
     out_waits := [1; 0; 2]%nat; err_waits := [0; 1]%nat;
     wakeups := [(true, false); (true, true)] |}.

(** A POSIX platform on which every launch starts [hello]; the stand-in
    for [pipes.quote] puts its argument between single quotes. *)
Definition sample_platform : platform :=
  {| POSIX := true; win32 := false;
     quote := fun s => "'" ++ s ++ "'";
     shlex_split := fun s => Some [s];
     Popen := fun _ => inr hello;
     unicode_console := true;
     getcwd := "/tmp"; node := "host"; getuser := "user";
     compressuser := fun s => s |}.

Definition no_kwargs : kwargs := {| detatch := None; unknown := [] |}.

(** A platform on which no program can be started, and one whose
    [shlex.split] rejects every text. *)
Definition no_exec_platform : platform :=
  {| POSIX := true; win32 := false;
     quote := fun s => "'" ++ s ++ "'";
     shlex_split := fun s => Some [s];
     Popen := fun _ => inl (OSError "No such file or directory");
     unicode_console := true;
     getcwd := "/tmp"; node := "host"; getuser := "user";
     compressuser := fun s => s |}.

Definition no_split_platform : platform :=
  {| POSIX := true; win32 := false;
     quote := fun s => "'" ++ s ++ "'";
     shlex_split := fun _ => None;
     Popen := fun _ => inr hello;
     unicode_console := true;
     getcwd := "/tmp"; node := "host"; getuser := "user";
     compressuser := fun s => s |}.

(** A child that writes nothing to stdout and two lines to stderr, read
    by workers that find it ended at their first poll, with every item
    in its queue when the foreground looks. *)
Definition two_errors : process :=
  {| proc_stdout := ""; proc_stderr := "b" ++ nl ++ "c" ++ nl; returncode := 1 |}.

Definition prompt_sched : schedule :=
  {| out_polls := 0; err_polls := 0; out_waits := []; err_waits := [];
     wakeups := [] |}.
(** ** Facts about [readline] and [_textio_iterlines] *)

Lemma join_cons (x : string) (xs : list string) : join (x :: xs) = x ++ join xs.
Proof.
  unfold join. destruct xs as [|y ys]; simpl.
  - induction x; simpl; congruence.
  - reflexivity.
Qed.

Lemma string_app_nil_r (s : string) : s ++ "" = s.
Proof. induction s; simpl; congruence. Qed.

Lemma string_app_assoc (a b c : string) : (a ++ b) ++ c = a ++ (b ++ c).
Proof. induction a; simpl; congruence. Qed.

Lemma join_app (xs ys : list string) : join (xs ++ ys) = join xs ++ join ys.
Proof.
  induction xs as [|x xs IH].
  - reflexivity.
  - change ((x :: xs) ++ ys)%list with (x :: (xs ++ ys))%list.
    rewrite !join_cons, IH, string_app_assoc. reflexivity.
Qed.

Lemma readline_app (stream line rest : string) :
  readline stream = (line, rest) -> line ++ rest = stream.
Proof.
  revert line rest. induction stream as [|c s IH]; intros line rest H; simpl in H.
  - injection H as <- <-. reflexivity.
  - destruct (Ascii.eqb c newline).
    + injection H as <- <-. reflexivity.
    + destruct (readline s) as [l r]. injection H as <- <-.
      simpl. f_equal. apply IH. reflexivity.
Qed.

Lemma string_length_app (a b : string) :
  String.length (a ++ b) = (String.length a + String.length b)%nat.
Proof. induction a; simpl; congruence. Qed.

Lemma readline_shorter (stream line rest : string) :
  readline stream = (line, rest) -> line <> "" ->
  (String.length rest < String.length stream)%nat.
Proof.
  intros E Hne. pose proof (readline_app stream line rest E) as Hs.
  subst stream. clear E. destruct line as [|c l]; [congruence|].
  rewrite string_length_app. simpl. lia.
Qed.

Lemma readline_eof (stream : string) :
  fst (readline stream) = "" <-> stream = "".
Proof.
  split.
  - destruct stream as [|c s]; [reflexivity|]. simpl.
    destruct (Ascii.eqb c newline); [discriminate|].
    destruct (readline s); discriminate.
  - intros ->. reflexivity.
Qed.

Lemma iterlines_unfold (stream : string) :
  _textio_iterlines stream =
    match readline stream with
    | (EmptyString, rest) => ([], rest)
    | (line, rest) =>
        let '(lines, final) := _textio_iterlines rest in (line :: lines, final)
    end.
Proof.
  funelim (_textio_iterlines stream).
  - rewrite e. reflexivity.
  - rewrite e, Heq. reflexivity.
Qed.

Lemma iterlines_cons (stream line rest : string) :
  readline stream = (line, rest) -> line <> "" ->
  _textio_iterlines stream =
    (line :: fst (_textio_iterlines rest), snd (_textio_iterlines rest)).
Proof.
  intros E Hne. rewrite (iterlines_unfold stream), E.
  destruct line; [congruence|].
  destruct (_textio_iterlines rest). reflexivity.
Qed.

(** Induction on a stream along its successive reads. *)
Lemma stream_ind (P : string -> Prop) :
  P "" ->
  (forall stream line rest,
      readline stream = (line, rest) -> line <> "" -> P rest -> P stream) ->
  forall stream, P stream.
Proof.
  intros H0 Hstep stream.
  remember (String.length stream) as n eqn:Hn.
  revert stream Hn. induction n as [n IH] using lt_wf_ind. intros stream Hn.
  destruct (readline stream) as [line rest] eqn:E.
  destruct (string_dec line "") as [->|Hne].
  - assert (stream = "") as -> by (apply readline_eof; rewrite E; reflexivity).
    exact H0.
  - apply (Hstep stream line rest E Hne).
    apply (IH (String.length rest)); [|reflexivity].
    subst n. apply (readline_shorter stream line rest E Hne).
Qed.

Lemma iterlines_final (stream : string) : snd (_textio_iterlines stream) = "".
Proof.
  induction stream as [|stream line rest E Hne IH] using stream_ind.
  - reflexivity.
  - rewrite (iterlines_cons _ _ _ E Hne). exact IH.
Qed.

Lemma iterlines_join (stream : string) :
  join (fst (_textio_iterlines stream)) = stream.
Proof.
  induction stream as [|stream line rest E Hne IH] using stream_ind.
  - reflexivity.
  - rewrite (iterlines_cons _ _ _ E Hne). simpl fst.
    rewrite join_cons, IH. apply readline_app, E.
Qed.

Lemma iterlines_nonempty (stream : string) :
  Forall (fun line => line <> "") (fst (_textio_iterlines stream)).
Proof.
  induction stream as [|stream line rest E Hne IH] using stream_ind.
  - constructor.
  - rewrite (iterlines_cons _ _ _ E Hne). constructor; assumption.
Qed.

Lemma iterlines_reads (stream : string) :
  reads (length (fst (_textio_iterlines stream))) stream =
    _textio_iterlines stream.
Proof.
  induction stream as [|stream line rest E Hne IH] using stream_ind.
  - reflexivity.
  - rewrite (iterlines_cons _ _ _ E Hne). simpl. rewrite E, IH.
    destruct (_textio_iterlines rest). reflexivity.
Qed.

Lemma readline_no_newline (frag : string) :
  has_newline frag = false -> readline frag = (frag, "").
Proof.
  induction frag as [|c s IH]; simpl; [reflexivity|].
  intros H. apply orb_false_iff in H as [Hc Hs].
  rewrite Hc, (IH Hs). reflexivity.
Qed.

Lemma readline_line_shape (stream line rest : string) :
  readline stream = (line, rest) ->
  (has_newline line = true /\ last_char line = Some newline) \/
  (has_newline line = false /\ rest = "" /\ line = stream).
Proof.
  revert line rest. induction stream as [|c s IH]; intros line rest H; simpl in H.
  - injection H as <- <-. right. auto.
  - destruct (Ascii.eqb c newline) eqn:Ec.
    + injection H as <- <-. left. simpl. rewrite Ec.
      apply Ascii.eqb_eq in Ec. subst c. auto.
    + destruct (readline s) as [l r] eqn:E. injection H as <- <-.
      destruct (IH l r eq_refl) as [[Hn Hl]|[Hn [-> ->]]].
      * left. simpl. rewrite Ec, Hn. split; [reflexivity|].
        destruct l; [discriminate|exact Hl].
      * right. simpl. rewrite Ec, Hn. auto.
Qed.

Lemma readline_more (stream line rest more : string) :
  readline stream = (line, rest) -> has_newline line = true ->
  readline (stream ++ more) = (line, rest ++ more).
Proof.
  revert line rest. induction stream as [|c s IH]; intros line rest H Hn; simpl in H.
  - injection H as <- <-. discriminate.
  - simpl. destruct (Ascii.eqb c newline) eqn:Ec.
    + injection H as <- <-. reflexivity.
    + destruct (readline s) as [l r] eqn:E. injection H as <- <-.
      simpl in Hn. rewrite Ec in Hn. simpl in Hn.
      rewrite (IH l r eq_refl Hn). reflexivity.
Qed.

Lemma last_char_app (a b : string) :
  last_char (a ++ b) = match b with "" => last_char a | _ => last_char b end.
Proof.
  induction a as [|c a IH].
  - destruct b; reflexivity.
  - destruct b as [|d b].
    + rewrite string_app_nil_r. reflexivity.
    + change (String c a ++ String d b) with (String c (a ++ String d b)).
      change (last_char (String c (a ++ String d b)))
        with (match a ++ String d b with
              | "" => Some c
              | _ => last_char (a ++ String d b)
              end).
      rewrite IH. destruct a; reflexivity.
Qed.

Lemma last_newline_has_newline (s : string) :
  last_char s = Some newline -> has_newline s = true.
Proof.
  induction s as [|c s IH]; [discriminate|].
  destruct s as [|d s].
  - simpl. intros [= ->]. reflexivity.
  - intros H. change (has_newline (String c (String d s)))
      with (Ascii.eqb c newline || has_newline (String d s)).
    rewrite (IH H). apply orb_true_r.
Qed.

Lemma last_char_none (s : string) : last_char s = None -> s = "".
Proof.
  induction s as [|c s IH]; [reflexivity|].
  destruct s as [|d s]; [discriminate|].
  intros H. specialize (IH H). discriminate.
Qed.

Lemma iterlines_terminated (body : string) :
  complete body ->
  Forall (fun line => last_char line = Some newline)
         (fst (_textio_iterlines body)).
Proof.
  induction body as [|body line rest E Hne IH] using stream_ind; intros Hc.
  - constructor.
  - rewrite (iterlines_cons _ _ _ E Hne). simpl fst.
    destruct (readline_line_shape _ _ _ E) as [[Hn Hl]|[Hn [-> ->]]].
    + constructor; [exact Hl|]. apply IH.
      pose proof (readline_app _ _ _ E) as Hs. unfold complete in *.
      rewrite <- Hs, last_char_app in Hc. destruct rest; auto.
    + constructor; [|constructor].
      destruct Hc as [Hc|Hc]; [|exact Hc].
      apply last_char_none in Hc. congruence.
Qed.

Lemma iterlines_final_fragment (body frag : string) :
  complete body -> frag <> "" -> has_newline frag = false ->
  fst (_textio_iterlines (body ++ frag)) =
    (fst (_textio_iterlines body) ++ [frag])%list.
Proof.
  intros Hc Hf Hn. revert Hc.
  induction body as [|body line rest E Hne IH] using stream_ind; intros Hc.
  - change ("" ++ frag) with frag.
    rewrite (iterlines_cons frag frag "" (readline_no_newline frag Hn) Hf).
    reflexivity.
  - pose proof (iterlines_terminated body Hc) as Ht.
    rewrite (iterlines_cons _ _ _ E Hne) in Ht. simpl fst in Ht.
    inversion Ht as [|? ? Hl _]; subst.
    pose proof (last_newline_has_newline _ Hl) as Hnl.
    rewrite (iterlines_cons _ _ _ (readline_more _ _ _ frag E Hnl) Hne).
    rewrite (iterlines_cons _ _ _ E Hne). simpl fst.
    rewrite IH; [reflexivity|].
    pose proof (readline_app _ _ _ E) as Hs. unfold complete in *.
    rewrite <- Hs, last_char_app in Hc. destruct rest; auto.
Qed.

Lemma reads_app (n m : nat) (stream : string) :
  reads (n + m) stream =
    (fst (reads n stream) ++ fst (reads m (snd (reads n stream))),
     snd (reads m (snd (reads n stream))))%list.
Proof.
  revert stream. induction n as [|n IH]; intros stream; simpl.
  - destruct (reads m stream). reflexivity.
  - destruct (readline stream) as [line rest]. rewrite IH.
    destruct (reads n rest) as [ls fin]. simpl. reflexivity.
Qed.

(** C4. For every text stream, [_textio_iterlines] yields exactly the
    results of the successive blocking [readline] calls up to, and not
    including, the first one that returns the end-of-stream marker [""]:
    the yielded lines are never [""], an empty line (a lone newline) is
    yielded like any other line, and joined together the lines are the
    whole stream.  When the stream ends with a fragment that lacks its
    newline, the lines are those of the text before it, each ended by a
    newline, followed by that fragment once. *)
Theorem textio_iterlines_spec (stream : string) :
  let lines := fst (_textio_iterlines stream) in
  reads (S (length lines)) stream = ((lines ++ [""])%list, "") /\
  Forall (fun line => line <> "") lines /\
  join lines = stream /\
  fst (_textio_iterlines (nl ++ stream)) = nl :: lines /\
  (forall body frag : string,
      stream = body ++ frag -> complete body ->
      frag <> "" -> has_newline frag = false ->
      lines = (fst (_textio_iterlines body) ++ [frag])%list /\
      Forall (fun line => last_char line = Some newline)
             (fst (_textio_iterlines body))).
Proof.
  intros lines. subst lines. repeat split.
  - replace (S (length (fst (_textio_iterlines stream))))
      with (length (fst (_textio_iterlines stream)) + 1)%nat by lia.
    rewrite reads_app, iterlines_reads, iterlines_final. reflexivity.
  - apply iterlines_nonempty.
  - apply iterlines_join.
  - rewrite (iterlines_cons (nl ++ stream) nl stream); [reflexivity| |discriminate].
    reflexivity.
  - subst stream. apply iterlines_final_fragment; assumption.
  - apply iterlines_terminated; assumption.
Qed.

Lemma textio_iterlines_spec_witness :
  fst (_textio_iterlines ("a" ++ nl ++ "b")) = ["a" ++ nl; "b"].
Proof.
  destruct (textio_iterlines_spec ("a" ++ nl ++ "b")) as (_ & _ & _ & _ & H).
  destruct (H ("a" ++ nl) "b") as [Hlines _].
  - reflexivity.
  - right. reflexivity.
  - discriminate.
  - reflexivity.
  - exact Hlines.
Defined.

(** ** Facts about the worker of the thread-based multiplexer *)

Lemma enqueue_live_reads (polls : nat) (stream : string) :
  enqueue_live polls stream =
    (map Some (fst (reads polls stream)), snd (reads polls stream)).
Proof.
  revert stream. induction polls as [|k IH]; intros stream; simpl.
  - reflexivity.
  - destruct (readline stream) as [line rest]. rewrite IH.
    destruct (reads k rest). reflexivity.
Qed.

Lemma enqueue_output_items (polls : nat) (stream : string) :
  enqueue_output polls stream =
    ((map Some (fst (reads polls stream) ++
                fst (_textio_iterlines (snd (reads polls stream)))) ++ [None])%list,
     "").
Proof.
  unfold enqueue_output. rewrite enqueue_live_reads.
  pose proof (iterlines_final (snd (reads polls stream))) as Hfin.
  destruct (_textio_iterlines (snd (reads polls stream))) as [lines final].
  simpl in Hfin. subst final. simpl fst.
  rewrite map_app, <- app_assoc. reflexivity.
Qed.

(** C5. Whatever the number of times the worker finds the process still
    running, the items it puts on its queue are lines (first one read for
    each such time, then the lines left on the stream once the process has
    ended, which drains the stream) followed by [None]: the completion
    value is the last item put, and it is put exactly once. *)
Theorem enqueue_output_sentinel (polls : nat) (stream : string) :
  let items := fst (enqueue_output polls stream) in
  let live := fst (reads polls stream) in
  let final := fst (_textio_iterlines (snd (reads polls stream))) in
  items = (map Some live ++ map Some final ++ [None])%list /\
  last items = Some None /\
  length (List.filter (fun item => negb (is_not_none item)) items) = 1%nat /\
  snd (enqueue_output polls stream) = "" /\
  (forall delays : list nat,
      puts (fst (_proc_async_iter_stream polls delays stream)) = items).
Proof.
  intros items live final. subst items live final.
  rewrite enqueue_output_items. simpl fst. simpl snd. repeat split.
  - rewrite map_app, <- app_assoc. reflexivity.
  - apply last_snoc.
  - rewrite List.filter_app. simpl. rewrite length_app. simpl.
    assert (forall ls : list string,
               List.filter (fun item => negb (is_not_none item)) (map Some ls) = [])
      as Hnone.
    { induction ls as [|l ls IH]; [reflexivity|exact IH]. }
    rewrite Hnone. reflexivity.
  - intros delays. unfold _proc_async_iter_stream.
    rewrite enqueue_output_items. reflexivity.
Qed.

(** ** Facts about the merge loop of the thread-based multiplexer *)

Lemma poll_side_stale (live : bool) (q : Queue) (line : option string) :
  (live = false -> line = None) ->
  snd (fst (poll_side live q line)) = false -> snd (poll_side live q line) = None.
Proof.
  intros Hstale. unfold poll_side. destruct live.
  - destruct (get_nowait q) as [[item|] q']; simpl.
    + destruct item; [discriminate|reflexivity].
    + reflexivity.
  - simpl. intros _. apply Hstale. reflexivity.
Qed.

Lemma merge_iteration_stale (st : merge_state) :
  stale_none st -> stale_none (fst (merge_iteration st)).
Proof.
  intros [Ho He]. unfold merge_iteration.
  pose proof (poll_side_stale _ (stdout_queue st) _ Ho) as Po.
  pose proof (poll_side_stale _ (stderr_queue st) _ He) as Pe.
  destruct (poll_side (stdout_live st) (stdout_queue st) (oline st)) as [[qo olive] ol].
  destruct (poll_side (stderr_live st) (stderr_queue st) (eline st)) as [[qe elive] el].
  split; simpl; assumption.
Qed.

Lemma merge_reaches_stale (qo qe : Queue) (st : merge_state) :
  merge_reaches (merge_start qo qe) st -> stale_none st.
Proof.
  induction 1 as [|st Hreach IH Hlive].
  - split; discriminate.
  - apply merge_iteration_stale, IH.
Qed.

Lemma poll_side_value (live : bool) (q : Queue) (line : option string) :
  (live = false -> line = None) ->
  snd (poll_side live q line) = side_value live q.
Proof.
  intros Hstale. unfold poll_side, side_value. destruct live.
  - destruct (get_nowait q) as [[item|] q']; reflexivity.
  - apply Hstale. reflexivity.
Qed.

Lemma poll_side_live (live : bool) (q : Queue) (line : option string) :
  snd (fst (poll_side live q line)) = live && negb (takes_sentinel live q).
Proof.
  unfold poll_side, takes_sentinel. destruct live; [|reflexivity].
  destruct (get_nowait q) as [[[item|]|] q']; reflexivity.
Qed.

Lemma merge_iteration_live (st : merge_state) :
  stdout_live (fst (merge_iteration st)) =
    stdout_live st && negb (takes_sentinel (stdout_live st) (stdout_queue st)) /\
  stderr_live (fst (merge_iteration st)) =
    stderr_live st && negb (takes_sentinel (stderr_live st) (stderr_queue st)).
Proof.
  unfold merge_iteration.
  pose proof (poll_side_live (stdout_live st) (stdout_queue st) (oline st)) as Po.
  pose proof (poll_side_live (stderr_live st) (stderr_queue st) (eline st)) as Pe.
  destruct (poll_side (stdout_live st) (stdout_queue st) (oline st)) as [[qo olive] ol].
  destruct (poll_side (stderr_live st) (stderr_queue st) (eline st)) as [[qe elive] el].
  simpl in *. auto.
Qed.

(** Each iteration seen alone, in a state the loop reaches: the record
    it yields is made of what the two sides produce on it, and it is
    yielded exactly when one of them produces a value. *)
Lemma merge_iteration_record (qo qe : Queue) (st : merge_state) :
  merge_reaches (merge_start qo qe) st ->
  let vo := side_value (stdout_live st) (stdout_queue st) in
  let ve := side_value (stderr_live st) (stderr_queue st) in
  snd (merge_iteration st) =
    (if is_not_none vo || is_not_none ve then Some (vo, ve) else None) /\
  (snd (merge_iteration st) <> None <-> (vo <> None \/ ve <> None)) /\
  stdout_live (fst (merge_iteration st)) =
    stdout_live st && negb (takes_sentinel (stdout_live st) (stdout_queue st)) /\
  stderr_live (fst (merge_iteration st)) =
    stderr_live st && negb (takes_sentinel (stderr_live st) (stderr_queue st)) /\
  (stdout_live st = false -> stderr_live st = false ->
   forall fuel, merge_loop fuel st = ([], true)).
Proof.
  intros Hreach vo ve.
  destruct (merge_reaches_stale qo qe st Hreach) as [Ho He].
  assert (snd (merge_iteration st) =
            (if is_not_none vo || is_not_none ve then Some (vo, ve) else None))
    as Hyield.
  { subst vo ve. unfold merge_iteration.
    pose proof (poll_side_value _ (stdout_queue st) _ Ho) as Po.
    pose proof (poll_side_value _ (stderr_queue st) _ He) as Pe.
    destruct (poll_side (stdout_live st) (stdout_queue st) (oline st)) as [[qo' olive] ol].
    destruct (poll_side (stderr_live st) (stderr_queue st) (eline st)) as [[qe' elive] el].
    simpl in *. subst ol el. reflexivity. }
  split; [exact Hyield|]. split; [|split; [|split]].
  - rewrite Hyield. destruct vo, ve; simpl; split; intros H;
      try congruence; try (left; congruence); try (right; congruence).
    destruct H as [H|H]; congruence.
  - apply merge_iteration_live.
  - apply merge_iteration_live.
  - intros Hol Hel fuel. destruct fuel; simpl; rewrite Hol, Hel; reflexivity.
Qed.

(** ** Facts about the select-based multiplexer *)

Lemma zip_longest_length {A B : Type} (xs : list A) (ys : list B) :
  length (zip_longest xs ys) = Nat.max (length xs) (length ys).
Proof.
  revert ys. induction xs as [|x xs IH]; intros ys.
  - simpl. apply length_map.
  - destruct ys as [|y ys]; simpl.
    + rewrite length_map. reflexivity.
    + rewrite IH. reflexivity.
Qed.

Lemma zip_longest_lookup {A B : Type} (xs : list A) (ys : list B) (i : nat) :
  zip_longest xs ys !! i =
    if (i <? Nat.max (length xs) (length ys))%nat
    then Some (xs !! i, ys !! i) else None.
Proof.
  revert ys i. induction xs as [|x xs IH]; intros ys i.
  - simpl. rewrite list_lookup_fmap.
    destruct (ys !! i) as [y|] eqn:E; simpl.
    + apply lookup_lt_Some in E.
      destruct (Nat.ltb_spec i (length ys)); [reflexivity|lia].
    + apply lookup_ge_None in E.
      destruct (Nat.ltb_spec i (length ys)); [lia|reflexivity].
  - destruct ys as [|y ys].
    + change (zip_longest (x :: xs) []) with (map (fun a : A => (Some a, @None B)) (x :: xs)).
      rewrite list_lookup_fmap. rewrite Nat.max_0_r.
      destruct ((x :: xs) !! i) as [a|] eqn:E.
      * apply lookup_lt_Some in E. rewrite lookup_nil.
        destruct (Nat.ltb_spec i (length (x :: xs))); [reflexivity|lia].
      * apply lookup_ge_None in E.
        destruct (Nat.ltb_spec i (length (x :: xs))); [lia|reflexivity].
    + destruct i as [|i]; [reflexivity|]. simpl. apply IH.
Qed.

Lemma select_drain_eq (proc : process) :
  select_drain proc =
    (zip_longest (fst (_textio_iterlines (proc_stdout proc)))
                 (fst (_textio_iterlines (proc_stderr proc))),
     set_streams proc "" "").
Proof.
  unfold select_drain.
  pose proof (iterlines_final (proc_stdout proc)) as Ho.
  pose proof (iterlines_final (proc_stderr proc)) as He.
  destruct (_textio_iterlines (proc_stdout proc)) as [olines out].
  destruct (_textio_iterlines (proc_stderr proc)) as [elines err].
  simpl in *. subst out err. reflexivity.
Qed.

(** C7. Once the process has ended, the select-based multiplexer yields
    its remaining records by zipping the lines left on stdout with the
    lines left on stderr: the record at each position holds the line of
    each stream at that position, and [None] for a stream that has no
    line left there; there are as many records as the longer of the two
    sequences has lines, and afterwards both streams are exhausted.
    These records follow the ones yielded while the process was
    running. *)
Theorem select_drain_zips (proc : process) :
  let olines := fst (_textio_iterlines (proc_stdout proc)) in
  let elines := fst (_textio_iterlines (proc_stderr proc)) in
  let records := fst (select_drain proc) in
  length records = Nat.max (length olines) (length elines) /\
  (forall i : nat,
      records !! i =
        if (i <? Nat.max (length olines) (length elines))%nat
        then Some (olines !! i, elines !! i) else None) /\
  join olines = proc_stdout proc /\ join elines = proc_stderr proc /\
  proc_stdout (snd (select_drain proc)) = "" /\
  proc_stderr (snd (select_drain proc)) = "" /\
  (forall sched : schedule,
      _proc_iteroutput_select sched proc =
        ((fst (select_live (wakeups sched) proc) ++
          fst (select_drain (snd (select_live (wakeups sched) proc))))%list,
         true,
         snd (select_drain (snd (select_live (wakeups sched) proc))))) /\
  (forall (op ep : nat) (ow ew : list nat),
      fst (fst (_proc_iteroutput_select
                  {| out_polls := op; err_polls := ep;
                     out_waits := ow; err_waits := ew; wakeups := [] |}
                  proc)) = records).
Proof.
  intros olines elines records. subst olines elines records.
  assert (forall sched : schedule,
             _proc_iteroutput_select sched proc =
               ((fst (select_live (wakeups sched) proc) ++
                 fst (select_drain (snd (select_live (wakeups sched) proc))))%list,
                true,
                snd (select_drain (snd (select_live (wakeups sched) proc)))))
    as Hsel.
  { intros sched. unfold _proc_iteroutput_select.
    destruct (select_live (wakeups sched) proc) as [live proc1]. simpl.
    destruct (select_drain proc1) as [rest final]. reflexivity. }
  assert (forall (op ep : nat) (ow ew : list nat),
             fst (fst (_proc_iteroutput_select
                         {| out_polls := op; err_polls := ep;
                            out_waits := ow; err_waits := ew; wakeups := [] |}
                         proc)) = fst (select_drain proc))
    as Hended.
  { intros op ep ow ew. rewrite Hsel. reflexivity. }
  rewrite (select_drain_eq proc) in *. simpl fst. simpl snd.
  repeat split; try assumption.
  - apply zip_longest_length.
  - intros i. apply zip_longest_lookup.
  - apply iterlines_join.
  - apply iterlines_join.
Qed.

(** ** Facts about the tee controller *)

Lemma tee_side_run (sd : side) (sink : bool) (line : option string)
    (logged : list string) :
  tee_side sd sink line logged =
    (forward_events sd sink line, Returned (logged ++ lines_of [line])%list).
Proof.
  destruct line as [[|c l]|]; simpl; unfold ret; rewrite ?app_nil_r;
    try reflexivity.
  destruct sink; reflexivity.
Qed.

Lemma lines_of_cons (x : option string) (xs : list (option string)) :
  lines_of (x :: xs) = (lines_of [x] ++ lines_of xs)%list.
Proof. unfold lines_of. simpl. rewrite app_nil_r. reflexivity. Qed.

Lemma lines_of_app (xs ys : list (option string)) :
  lines_of (xs ++ ys) = (lines_of xs ++ lines_of ys)%list.
Proof. unfold lines_of. apply flat_map_app. Qed.

Lemma forward_trace_cons (stdout stderr : bool) (ol el : option string)
    (records : list merge_record) :
  forward_trace stdout stderr ((ol, el) :: records) =
    ((forward_events Out stdout ol ++ forward_events Err stderr el) ++
     forward_trace stdout stderr records)%list.
Proof. reflexivity. Qed.

Lemma tee_records_run (stdout stderr : bool) (records : list merge_record)
    (logged_out logged_err : list string) :
  tee_records stdout stderr records logged_out logged_err =
    (forward_trace stdout stderr records,
     Returned ((logged_out ++ lines_of (map fst records))%list,
               (logged_err ++ lines_of (map snd records))%list)).
Proof.
  revert logged_out logged_err.
  induction records as [|[ol el] records IH]; intros logged_out logged_err.
  - simpl. unfold ret. rewrite !app_nil_r. reflexivity.
  - cbn [tee_records]. rewrite !tee_side_run. cbn [bind]. rewrite IH.
    cbn [map fst snd].
    rewrite (lines_of_cons ol (map fst records)), (lines_of_cons el (map snd records)).
    rewrite forward_trace_cons, <- !app_assoc. reflexivity.
Qed.

Lemma choose_backend_ok (POSIX : bool) (backend : string) :
  backend_ok POSIX backend = true ->
  choose_backend POSIX backend = ret _proc_iteroutput_select \/
  choose_backend POSIX backend = ret _proc_iteroutput_thread.
Proof.
  unfold backend_ok, choose_backend. intros H.
  destruct (backend =? "auto")%string eqn:Ea; [right; reflexivity|].
  destruct (backend =? "select")%string eqn:Es.
  - apply String.eqb_eq in Es. subst backend. simpl in H. subst POSIX.
    left. reflexivity.
  - destruct (backend =? "thread")%string; [right; reflexivity|discriminate].
Qed.

Lemma choose_backend_rejects (POSIX : bool) (backend : string) :
  backend_ok POSIX backend = false ->
  choose_backend POSIX backend =
    raise (if (backend =? "select")%string
           then NotImplementedError "select is only available on posix"
           else ValueError "backend must be select, thread, or auto").
Proof.
  unfold backend_ok, choose_backend. intros H.
  destruct (backend =? "auto")%string eqn:Ea; [discriminate|].
  destruct (backend =? "select")%string eqn:Es.
  - apply String.eqb_eq in Es. subst backend. simpl in H. subst POSIX.
    reflexivity.
  - destruct (backend =? "thread")%string; [discriminate|reflexivity].
Qed.

(** The run of [_tee_output] once the backend is chosen and the factory
    has given a process. *)
Lemma tee_output_run (POSIX : bool) (proc proc' : process) (mux : multiplexer)
    (stdout stderr : bool) (backend : string) (sched : schedule)
    (records : list merge_record) (ended : bool) :
  choose_backend POSIX backend = ret mux ->
  mux sched proc = (records, ended, proc') ->
  _tee_output POSIX (inr proc) stdout stderr backend sched =
    (Launch :: forward_trace stdout stderr records,
     if ended
     then Returned (proc', lines_of (map fst records), lines_of (map snd records))
     else Hangs).
Proof.
  intros Hc Hm. unfold _tee_output. rewrite Hc. simpl. rewrite Hm.
  rewrite tee_records_run. simpl. destruct ended; simpl; rewrite app_nil_r;
    reflexivity.
Qed.

(** What a returning run of [_tee_output] has gone through. *)
Lemma tee_output_returned (POSIX : bool) (make_proc : exn + process)
    (stdout stderr : bool) (backend : string) (sched : schedule)
    (trace : list event) (proc' : process) (logged_out logged_err : list string) :
  _tee_output POSIX make_proc stdout stderr backend sched =
    (trace, Returned (proc', logged_out, logged_err)) ->
  exists (mux : multiplexer) (proc : process) (records : list merge_record),
    choose_backend POSIX backend = ret mux /\
    make_proc = inr proc /\
    mux sched proc = (records, true, proc') /\
    trace = Launch :: forward_trace stdout stderr records /\
    logged_out = lines_of (map fst records) /\
    logged_err = lines_of (map snd records).
Proof.
  intros H.
  destruct (backend_ok POSIX backend) eqn:Hok.
  - assert (exists mux, choose_backend POSIX backend = ret mux) as [mux Hc].
    { destruct (choose_backend_ok _ _ Hok); eauto. }
    destruct make_proc as [e|proc].
    + unfold _tee_output in H. rewrite Hc in H. simpl in H. discriminate.
    + destruct (mux sched proc) as [[records ended] p] eqn:Hm.
      rewrite (tee_output_run _ _ _ _ _ _ _ _ _ _ Hc Hm) in H.
      destruct ended; [|discriminate].
      injection H as <- <- <- <-. exists mux, proc, records.
      repeat split; assumption || reflexivity.
  - unfold _tee_output in H. rewrite (choose_backend_rejects _ _ Hok) in H.
    simpl in H. discriminate.
Qed.

Lemma sink_calls_app (sd : side) (t1 t2 : list event) :
  sink_calls sd (t1 ++ t2) = (sink_calls sd t1 ++ sink_calls sd t2)%list.
Proof. unfold sink_calls. apply List.filter_app. Qed.

Lemma written_app (sd : side) (t1 t2 : list event) :
  written sd (t1 ++ t2) = (written sd t1 ++ written sd t2)%list.
Proof. unfold written. apply flat_map_app. Qed.

Lemma forward_trace_calls (stdout stderr : bool) (records : list merge_record) :
  sink_calls Out (forward_trace stdout stderr records) =
    (if stdout then write_flush Out (lines_of (map fst records)) else []) /\
  sink_calls Err (forward_trace stdout stderr records) =
    (if stderr then write_flush Err (lines_of (map snd records)) else []).
Proof.
  induction records as [|[ol el] records [IHo IHe]].
  - destruct stdout, stderr; split; reflexivity.
  - rewrite forward_trace_cons.
    change (map fst ((ol, el) :: records)) with (ol :: map fst records).
    change (map snd ((ol, el) :: records)) with (el :: map snd records).
    rewrite (lines_of_cons ol (map fst records)), (lines_of_cons el (map snd records)).
    rewrite !sink_calls_app, IHo, IHe.
    split.
    + destruct stdout, stderr, ol as [[|? ?]|], el as [[|? ?]|]; reflexivity.
    + destruct stdout, stderr, ol as [[|? ?]|], el as [[|? ?]|]; reflexivity.
Qed.

Lemma forward_trace_written (stdout stderr : bool) (records : list merge_record) :
  written Out (forward_trace stdout stderr records) =
    (if stdout then lines_of (map fst records) else []) /\
  written Err (forward_trace stdout stderr records) =
    (if stderr then lines_of (map snd records) else []).
Proof.
  induction records as [|[ol el] records [IHo IHe]].
  - destruct stdout, stderr; split; reflexivity.
  - rewrite forward_trace_cons.
    change (map fst ((ol, el) :: records)) with (ol :: map fst records).
    change (map snd ((ol, el) :: records)) with (el :: map snd records).
    rewrite (lines_of_cons ol (map fst records)), (lines_of_cons el (map snd records)).
    rewrite !written_app, IHo, IHe.
    split.
    + destruct stdout, stderr, ol as [[|? ?]|], el as [[|? ?]|]; reflexivity.
    + destruct stdout, stderr, ol as [[|? ?]|], el as [[|? ?]|]; reflexivity.
Qed.

Lemma lines_of_nonempty (xs : list (option string)) :
  Forall (fun line => line <> "") (lines_of xs).
Proof.
  induction xs as [|[[|c l]|] xs IH]; simpl; try exact IH.
  - constructor.
  - constructor; [discriminate|exact IH].
Qed.

Lemma forward_trace_no_empty_write (stdout stderr : bool)
    (records : list merge_record) (sd : side) :
  ~ In (Write sd "") (forward_trace stdout stderr records).
Proof.
  induction records as [|[ol el] records IH]; [intros []|].
  rewrite forward_trace_cons.
  rewrite !in_app_iff. intros [[H|H]|H]; [| |exact (IH H)].
  - destruct ol as [[|? ?]|], stdout; simpl in H; intuition discriminate.
  - destruct el as [[|? ?]|], stderr; simpl in H; intuition discriminate.
Qed.

(** ** Every multiplexer ends and delivers the whole of both streams *)

Lemma join_lines_of_some (xs : list string) :
  join (lines_of (map Some xs)) = join xs.
Proof.
  induction xs as [|x xs IH]; [reflexivity|].
  change (map Some (x :: xs)) with (Some x :: map Some xs).
  rewrite lines_of_cons, join_app, IH, join_cons.
  destruct x; reflexivity.
Qed.

Lemma reads_join (n : nat) (stream : string) :
  join (fst (reads n stream)) ++ snd (reads n stream) = stream.
Proof.
  revert stream. induction n as [|n IH]; intros stream; simpl.
  - reflexivity.
  - destruct (readline stream) as [line rest] eqn:E.
    specialize (IH rest). destruct (reads n rest) as [lines final].
    simpl in *. rewrite join_cons, string_app_assoc, IH.
    apply readline_app, E.
Qed.

Lemma side_ok_work (live : bool) (q : Queue) (line : option string) :
  side_ok live q line -> live = true -> (1 <= side_work live q)%nat.
Proof.
  intros Hok ->. simpl in *. destruct Hok as [ls Hp].
  unfold queue_work. rewrite Hp, length_app. simpl. lia.
Qed.

Lemma poll_side_step (live : bool) (q : Queue) (line : option string) :
  side_ok live q line ->
  side_ok (snd (fst (poll_side live q line))) (fst (fst (poll_side live q line)))
          (snd (poll_side live q line)) /\
  side_lines live q =
    (lines_of [snd (poll_side live q line)] ++
     side_lines (snd (fst (poll_side live q line))) (fst (fst (poll_side live q line))))%list /\
  (side_work (snd (fst (poll_side live q line))) (fst (fst (poll_side live q line)))
   + (if live then 1 else 0) <= side_work live q)%nat.
Proof.
  intros Hok. unfold poll_side. destruct live; simpl in *.
  - destruct Hok as [ls Hp]. destruct q as [ps ws]. simpl in Hp. subst ps.
    unfold get_nowait, queue_work.
    destruct ls as [|l ls], ws as [|[|k] ws]; simpl;
      unfold queue_work; simpl; rewrite ?length_app; simpl; repeat split;
      try lia; try reflexivity;
      try (exists []; reflexivity);
      try (exists ls; reflexivity);
      try (exists (l :: ls); reflexivity);
      try apply (lines_of_cons (Some l)).
  - subst line. repeat split. lia.
Qed.

Lemma merge_loop_captures (fuel : nat) (st : merge_state) :
  side_ok (stdout_live st) (stdout_queue st) (oline st) ->
  side_ok (stderr_live st) (stderr_queue st) (eline st) ->
  (side_work (stdout_live st) (stdout_queue st) +
   side_work (stderr_live st) (stderr_queue st) <= fuel)%nat ->
  exists records : list merge_record,
    merge_loop fuel st = (records, true) /\
    lines_of (map fst records) = side_lines (stdout_live st) (stdout_queue st) /\
    lines_of (map snd records) = side_lines (stderr_live st) (stderr_queue st).
Proof.
  revert st. induction fuel as [|fuel IH]; intros st Ho He Hfuel.
  - pose proof (side_ok_work _ _ _ Ho) as Wo.
    pose proof (side_ok_work _ _ _ He) as We.
    destruct (stdout_live st) eqn:Lo; [specialize (Wo eq_refl); lia|].
    destruct (stderr_live st) eqn:Le; [specialize (We eq_refl); lia|].
    exists []. simpl. rewrite Lo, Le. auto.
  - destruct (stdout_live st || stderr_live st) eqn:Live.
    + destruct (poll_side_step _ _ _ Ho) as (Ho' & Lo' & Wo').
      destruct (poll_side_step _ _ _ He) as (He' & Le' & We').
      cbn [merge_loop]. rewrite Live. unfold merge_iteration.
      destruct (poll_side (stdout_live st) (stdout_queue st) (oline st))
        as [[qo olive] ol].
      destruct (poll_side (stderr_live st) (stderr_queue st) (eline st))
        as [[qe elive] el].
      cbn [fst snd] in *.
      destruct (IH {| stdout_queue := qo; stderr_queue := qe;
                      stdout_live := olive; stderr_live := elive;
                      oline := ol; eline := el |}) as (records & Hloop & Ro & Re).
      * exact Ho'.
      * exact He'.
      * simpl. destruct (stdout_live st), (stderr_live st);
          try discriminate; lia.
      * cbn [stdout_live stdout_queue stderr_live stderr_queue] in Ro, Re.
        rewrite Hloop, Lo', Le', <- Ro, <- Re.
        destruct ol as [ol|], el as [el|]; simpl;
          eexists; (split; [reflexivity|]); split;
          try apply (lines_of_cons (Some ol));
          try apply (lines_of_cons (Some el));
          try apply (lines_of_cons None);
          reflexivity.
    + apply orb_false_iff in Live as [Lo Le].
      exists []. simpl. rewrite Lo, Le. auto.
Qed.

Lemma thread_captures (sched : schedule) (proc : process) :
  exists records : list merge_record,
    _proc_iteroutput_thread sched proc = (records, true, set_streams proc "" "") /\
    join (lines_of (map fst records)) = proc_stdout proc /\
    join (lines_of (map snd records)) = proc_stderr proc.
Proof.
  unfold _proc_iteroutput_thread, _proc_async_iter_stream.
  rewrite !enqueue_output_items.
  set (qo := {| puts := _; waits := out_waits sched |}).
  set (qe := {| puts := _; waits := err_waits sched |}).
  destruct (merge_loop_captures (queue_work qo + queue_work qe) (merge_start qo qe))
    as (records & Hloop & Ro & Re).
  - simpl. eexists. reflexivity.
  - simpl. eexists. reflexivity.
  - simpl. lia.
  - exists records. rewrite Hloop, Ro, Re. simpl.
    rewrite !lines_of_app, !join_app, !join_lines_of_some, !join_app.
    change (join (lines_of [None])) with "".
    rewrite !string_app_nil_r, !iterlines_join.
    pose proof (reads_join (out_polls sched) (proc_stdout proc)) as Jo.
    pose proof (reads_join (err_polls sched) (proc_stderr proc)) as Je.
    auto.
Qed.

Lemma select_readlines_ready (ready : bool * bool) (proc : process) :
  select_readlines (select [stdout_fileno; stderr_fileno] ready) proc None None =
    (set_streams proc
       (if fst ready then snd (readline (proc_stdout proc)) else proc_stdout proc)
       (if snd ready then snd (readline (proc_stderr proc)) else proc_stderr proc),
     if fst ready then Some (fst (readline (proc_stdout proc))) else None,
     if snd ready then Some (fst (readline (proc_stderr proc))) else None).
Proof.
  destruct proc as [out err code].
  destruct (readline out) as [lo so] eqn:Eo, (readline err) as [le se] eqn:Ee.
  destruct ready as [[|] [|]]; simpl; rewrite ?Eo, ?Ee; simpl; rewrite ?Eo, ?Ee;
    reflexivity.
Qed.

Lemma select_live_captures (wakes : list (bool * bool)) (proc : process) :
  join (lines_of (map fst (fst (select_live wakes proc)))) ++
    proc_stdout (snd (select_live wakes proc)) = proc_stdout proc /\
  join (lines_of (map snd (fst (select_live wakes proc)))) ++
    proc_stderr (snd (select_live wakes proc)) = proc_stderr proc /\
  returncode (snd (select_live wakes proc)) = returncode proc.
Proof.
  revert proc. induction wakes as [|ready wakes IH]; intros proc.
  - simpl. auto.
  - cbn [select_live]. rewrite select_readlines_ready.
    set (proc1 := set_streams proc _ _).
    destruct (IH proc1) as (Jo & Je & Rc).
    destruct (select_live wakes proc1) as [records final].
    cbn [fst snd map] in *.
    rewrite (lines_of_cons _ (map fst records)), (lines_of_cons _ (map snd records)).
    rewrite !join_app, !string_app_assoc, Jo, Je, Rc.
    subst proc1. simpl.
    destruct ready as [ro re]. simpl.
    pose proof (readline_app (proc_stdout proc)) as Ao.
    pose proof (readline_app (proc_stderr proc)) as Ae.
    destruct (readline (proc_stdout proc)) as [lo so].
    destruct (readline (proc_stderr proc)) as [le se].
    specialize (Ao _ _ eq_refl). specialize (Ae _ _ eq_refl).
    repeat split.
    + destruct ro; [|reflexivity]. simpl. rewrite <- Ao.
      destruct lo; reflexivity.
    + destruct re; [|reflexivity]. simpl. rewrite <- Ae.
      destruct le; reflexivity.
Qed.

Lemma zip_longest_fst (xs ys : list string) :
  lines_of (map fst (zip_longest xs ys)) = lines_of (map Some xs).
Proof.
  revert ys. induction xs as [|x xs IH]; intros ys.
  - simpl. induction ys as [|y ys IHy]; [reflexivity|exact IHy].
  - destruct ys as [|y ys].
    + simpl. f_equal. clear. induction xs as [|a xs IHx]; [reflexivity|].
      simpl. rewrite IHx. reflexivity.
    + simpl. rewrite IH. reflexivity.
Qed.

Lemma zip_longest_snd (xs ys : list string) :
  lines_of (map snd (zip_longest xs ys)) = lines_of (map Some ys).
Proof.
  revert ys. induction xs as [|x xs IH]; intros ys.
  - simpl. induction ys as [|y ys IHy]; [reflexivity|].
    simpl. rewrite IHy. reflexivity.
  - destruct ys as [|y ys].
    + simpl. clear. induction xs as [|a xs IHx]; [reflexivity|exact IHx].
    + simpl. rewrite IH. reflexivity.
Qed.

Lemma select_captures (sched : schedule) (proc : process) :
  exists records : list merge_record,
    _proc_iteroutput_select sched proc = (records, true, set_streams proc "" "") /\
    join (lines_of (map fst records)) = proc_stdout proc /\
    join (lines_of (map snd records)) = proc_stderr proc.
Proof.
  unfold _proc_iteroutput_select.
  destruct (select_live_captures (wakeups sched) proc) as (Jo & Je & Rc).
  destruct (select_live (wakeups sched) proc) as [live proc1].
  rewrite select_drain_eq. cbn [fst snd] in *.
  eexists. split.
  - unfold set_streams. rewrite Rc. reflexivity.
  - rewrite !map_app, !lines_of_app, !join_app.
    rewrite zip_longest_fst, zip_longest_snd, !join_lines_of_some, !iterlines_join.
    auto.
Qed.

Lemma choose_backend_returns (POSIX : bool) (backend : string) (mux : multiplexer) :
  choose_backend POSIX backend = ret mux ->
  backend_ok POSIX backend = true /\
  (mux = _proc_iteroutput_select \/ mux = _proc_iteroutput_thread).
Proof.
  intros H. destruct (backend_ok POSIX backend) eqn:Hok.
  - split; [reflexivity|].
    destruct (choose_backend_ok _ _ Hok) as [E|E]; rewrite E in H;
      injection H as <-; auto.
  - rewrite (choose_backend_rejects _ _ Hok) in H. discriminate.
Qed.

Lemma multiplexer_captures (POSIX : bool) (backend : string) (mux : multiplexer)
    (sched : schedule) (proc : process) :
  choose_backend POSIX backend = ret mux ->
  exists records : list merge_record,
    mux sched proc = (records, true, set_streams proc "" "") /\
    join (lines_of (map fst records)) = proc_stdout proc /\
    join (lines_of (map snd records)) = proc_stderr proc.
Proof.
  intros H. destruct (choose_backend_returns _ _ _ H) as [_ [-> | ->]].
  - apply select_captures.
  - apply thread_captures.
Qed.

(** ** The records of the merge loop, iteration by iteration *)

Lemma poll_side_after (live : bool) (q : Queue) (line : option string) :
  fst (poll_side live q line) = side_after live q.
Proof.
  unfold poll_side, side_after. destruct live; [|reflexivity].
  destruct (get_nowait q) as [[item|] q']; reflexivity.
Qed.

Lemma merge_iteration_sides (st : merge_state) :
  stale_none st ->
  merge_iteration st =
    ({| stdout_queue := fst (side_after (stdout_live st) (stdout_queue st));
        stderr_queue := fst (side_after (stderr_live st) (stderr_queue st));
        stdout_live := snd (side_after (stdout_live st) (stdout_queue st));
        stderr_live := snd (side_after (stderr_live st) (stderr_queue st));
        oline := side_value (stdout_live st) (stdout_queue st);
        eline := side_value (stderr_live st) (stderr_queue st) |},
     if has_value (side_value (stdout_live st) (stdout_queue st),
                   side_value (stderr_live st) (stderr_queue st))
     then Some (side_value (stdout_live st) (stdout_queue st),
                side_value (stderr_live st) (stderr_queue st))
     else None).
Proof.
  intros [Ho He]. unfold merge_iteration.
  pose proof (poll_side_after (stdout_live st) (stdout_queue st) (oline st)) as Ao.
  pose proof (poll_side_after (stderr_live st) (stderr_queue st) (eline st)) as Ae.
  pose proof (poll_side_value _ (stdout_queue st) _ Ho) as Vo.
  pose proof (poll_side_value _ (stderr_queue st) _ He) as Ve.
  destruct (poll_side (stdout_live st) (stdout_queue st) (oline st)) as [[qo olive] ol].
  destruct (poll_side (stderr_live st) (stderr_queue st) (eline st)) as [[qe elive] el].
  cbn [fst snd] in *. rewrite <- Ao, <- Ae, <- Vo, <- Ve. reflexivity.
Qed.

Lemma merge_loop_iterations (fuel : nat) (st : merge_state) :
  stale_none st ->
  fst (merge_loop fuel st) =
    List.filter has_value
      (iterations fuel (stdout_live st) (stdout_queue st)
                       (stderr_live st) (stderr_queue st)).
Proof.
  revert st. induction fuel as [|fuel IH]; intros st Hstale.
  - simpl. destruct (stdout_live st || stderr_live st); reflexivity.
  - cbn [merge_loop iterations].
    destruct (stdout_live st || stderr_live st); [|reflexivity].
    pose proof (merge_iteration_stale st Hstale) as Hnext.
    rewrite (merge_iteration_sides st Hstale) in Hnext |- *.
    specialize (IH _ Hnext). cbn [fst stdout_live stdout_queue stderr_live stderr_queue] in IH.
    destruct (merge_loop fuel _) as [records ended]. cbn [fst] in *.
    cbn [List.filter].
    destruct (has_value _); rewrite IH; reflexivity.
Qed.

Lemma merge_loop_ended (fuel more : nat) (st : merge_state) :
  snd (merge_loop fuel st) = true ->
  iterations (fuel + more) (stdout_live st) (stdout_queue st)
                           (stderr_live st) (stderr_queue st) =
    iterations fuel (stdout_live st) (stdout_queue st)
                    (stderr_live st) (stderr_queue st).
Proof.
  revert st. induction fuel as [|fuel IH]; intros st Hended.
  - simpl in Hended. destruct (stdout_live st || stderr_live st) eqn:Live;
      [discriminate|].
    destruct more; simpl; [reflexivity|]. rewrite Live. reflexivity.
  - cbn [merge_loop] in Hended. cbn [Nat.add iterations].
    destruct (stdout_live st || stderr_live st); [|reflexivity].
    f_equal.
    pose proof (poll_side_after (stdout_live st) (stdout_queue st) (oline st)) as Ao.
    pose proof (poll_side_after (stderr_live st) (stderr_queue st) (eline st)) as Ae.
    unfold merge_iteration in Hended.
    destruct (poll_side (stdout_live st) (stdout_queue st) (oline st)) as [[qo olive] ol].
    destruct (poll_side (stderr_live st) (stderr_queue st) (eline st)) as [[qe elive] el].
    cbn [fst] in Ao, Ae. rewrite <- Ao, <- Ae. cbn [fst snd].
    match type of Hended with
    | context [merge_loop fuel ?s] =>
        specialize (IH s); destruct (merge_loop fuel s) as [records ended]
    end.
    apply IH. exact Hended.
Qed.

(** C6. The records the thread-based multiplexer yields are, in order, the
    pairs of what the two sides produce on the iterations of its merge
    loop on which at least one side produces a value: a record is yielded
    on an iteration if and only if a side produces a value on it, also
    when the other stream has already completed (its side of the record
    is then [None]).  The loop runs for as long as a stream is live and
    ends once both have taken their completion value, after which nothing
    is yielded.  This holds for the loop on any two queues, and for the
    queues the two workers of a process fill, under every schedule. *)
Theorem thread_merge_loop_yields (sched : schedule) (proc : process) :
  let qo := fst (_proc_async_iter_stream (out_polls sched) (out_waits sched)
                                         (proc_stdout proc)) in
  let qe := fst (_proc_async_iter_stream (err_polls sched) (err_waits sched)
                                         (proc_stderr proc)) in
  let rounds := iterations (queue_work qo + queue_work qe) true qo true qe in
  fst (fst (_proc_iteroutput_thread sched proc)) = List.filter has_value rounds /\
  snd (fst (_proc_iteroutput_thread sched proc)) = true /\
  (forall more : nat,
      iterations (queue_work qo + queue_work qe + more) true qo true qe = rounds) /\
  (forall (fuel : nat) (qo' qe' : Queue),
      fst (merge_loop fuel (merge_start qo' qe')) =
        List.filter has_value (iterations fuel true qo' true qe')) /\
  (forall (fuel : nat) (st : merge_state),
      stdout_live st = false -> stderr_live st = false ->
      merge_loop fuel st = ([], true)).
Proof.
  intros qo qe rounds.
  assert (forall (fuel : nat) (qo' qe' : Queue),
             fst (merge_loop fuel (merge_start qo' qe')) =
               List.filter has_value (iterations fuel true qo' true qe')) as Hloop.
  { intros fuel qo' qe'.
    apply (merge_loop_iterations fuel (merge_start qo' qe')).
    split; discriminate. }
  destruct (thread_captures sched proc) as (records & Hrun & _).
  pose proof (merge_loop_ended (queue_work qo + queue_work qe)) as Hended.
  specialize (Hloop (queue_work qo + queue_work qe) qo qe).
  unfold _proc_iteroutput_thread in Hrun |- *.
  subst rounds qo qe.
  destruct (_proc_async_iter_stream (out_polls sched) (out_waits sched) (proc_stdout proc))
    as [qo out].
  destruct (_proc_async_iter_stream (err_polls sched) (err_waits sched) (proc_stderr proc))
    as [qe err].
  cbn [fst] in *.
  destruct (merge_loop (queue_work qo + queue_work qe) (merge_start qo qe))
    as [recs ended] eqn:E.
  injection Hrun as -> -> _. cbn [fst snd] in *.
  split; [exact Hloop|]. split; [reflexivity|]. split; [|split].
  - intros more. apply (Hended more (merge_start qo qe)). rewrite E. reflexivity.
  - intros fuel qo' qe'.
    apply (merge_loop_iterations fuel (merge_start qo' qe')). split; discriminate.
  - intros fuel st Hol Hel. destruct fuel; simpl; rewrite Hol, Hel; reflexivity.
Qed.

Lemma thread_merge_loop_yields_witness :
  iterations 4 true {| puts := [None]; waits := [] |}
               true {| puts := [Some ("b" ++ nl); Some ("c" ++ nl); None]; waits := [] |} =
    [(None, Some ("b" ++ nl)); (None, Some ("c" ++ nl)); (None, None)] /\
  fst (fst (_proc_iteroutput_thread prompt_sched two_errors)) =
    [(None, Some ("b" ++ nl)); (None, Some ("c" ++ nl))] /\
  merge_loop 1 {| stdout_queue := {| puts := []; waits := [] |};
                  stderr_queue := {| puts := []; waits := [] |};
                  stdout_live := false; stderr_live := false;
                  oline := None; eline := None |} = ([], true).
Proof.
  split; [reflexivity|]. split.
  - exact (proj1 (thread_merge_loop_yields prompt_sched two_errors)).
  - exact (proj2 (proj2 (proj2 (proj2
             (thread_merge_loop_yields prompt_sched two_errors))))
             1%nat
             {| stdout_queue := {| puts := []; waits := [] |};
                stderr_queue := {| puts := []; waits := [] |};
                stdout_live := false; stderr_live := false;
                oline := None; eline := None |}
             eq_refl eq_refl).
Defined.

(** ** Properties of the tee controller *)

Lemma forward_trace_no_launch (stdout stderr : bool) (records : list merge_record) :
  ~ In Launch (forward_trace stdout stderr records).
Proof.
  induction records as [|[ol el] records IH]; [intros []|].
  rewrite forward_trace_cons.
  rewrite !in_app_iff. intros [[H|H]|H]; [| |exact (IH H)].
  - destruct ol as [[|? ?]|], stdout; simpl in H; intuition discriminate.
  - destruct el as [[|? ?]|], stderr; simpl in H; intuition discriminate.
Qed.

(** The three ways a run of [_tee_output] can go. *)
Lemma tee_output_cases (POSIX : bool) (make_proc : exn + process)
    (stdout stderr : bool) (backend : string) (sched : schedule) :
  (backend_ok POSIX backend = false /\
   exists e, _tee_output POSIX make_proc stdout stderr backend sched = ([], Raised e)) \/
  (backend_ok POSIX backend = true /\
   exists e, make_proc = inl e /\
     _tee_output POSIX make_proc stdout stderr backend sched = ([Launch], Raised e)) \/
  (backend_ok POSIX backend = true /\
   exists mux proc records,
     choose_backend POSIX backend = ret mux /\ make_proc = inr proc /\
     mux sched proc = (records, true, set_streams proc "" "") /\
     _tee_output POSIX make_proc stdout stderr backend sched =
       (Launch :: forward_trace stdout stderr records,
        Returned (set_streams proc "" "",
                  lines_of (map fst records), lines_of (map snd records)))).
Proof.
  destruct (backend_ok POSIX backend) eqn:Hok.
  - right.
    assert (exists mux, choose_backend POSIX backend = ret mux) as [mux Hc].
    { destruct (choose_backend_ok _ _ Hok); eauto. }
    destruct make_proc as [e|proc].
    + left. split; [reflexivity|]. exists e. split; [reflexivity|].
      unfold _tee_output. rewrite Hc. reflexivity.
    + right. split; [reflexivity|].
      destruct (multiplexer_captures _ _ _ sched proc Hc) as (records & Hm & _).
      exists mux, proc, records. repeat split; try assumption.
      apply (tee_output_run _ _ _ _ _ _ _ _ _ _ Hc Hm).
  - left. split; [reflexivity|]. eexists.
    unfold _tee_output. rewrite (choose_backend_rejects _ _ Hok). reflexivity.
Qed.

(** C2. In a run of [_tee_output] whose backend is accepted and whose
    factory gives a process, every line the chosen multiplexer produces
    on a side (every value of the side that is neither [None] nor [""])
    is appended to the capture buffer of that side, in order, whether or
    not a sink is passed for it.  Passing a sink only adds, for each of
    these lines, a write of the line to the sink followed at once by a
    flush; without a sink nothing is called on that side.  The outcome
    of a run, and so what it captures, never depends on the sinks. *)
Theorem tee_captures_regardless_of_sinks (POSIX : bool)
    (make_proc : exn + process) (stdout stderr : bool) (backend : string)
    (sched : schedule) :
  let run := _tee_output POSIX make_proc stdout stderr backend sched in
  snd run = snd (_tee_output POSIX make_proc false false backend sched) /\
  (forall (mux : multiplexer) (proc : process),
      choose_backend POSIX backend = ret mux -> make_proc = inr proc ->
      let records := fst (fst (mux sched proc)) in
      snd run = Returned (snd (mux sched proc),
                          lines_of (map fst records), lines_of (map snd records)) /\
      sink_calls Out (fst run) =
        (if stdout then write_flush Out (lines_of (map fst records)) else []) /\
      sink_calls Err (fst run) =
        (if stderr then write_flush Err (lines_of (map snd records)) else [])).
Proof.
  intros run. subst run. split.
  - destruct (backend_ok POSIX backend) eqn:Hok.
    + assert (exists mux, choose_backend POSIX backend = ret mux) as [mux Hc].
      { destruct (choose_backend_ok _ _ Hok); eauto. }
      destruct make_proc as [e|proc].
      * unfold _tee_output. rewrite Hc. reflexivity.
      * destruct (multiplexer_captures _ _ _ sched proc Hc) as (records & Hm & _).
        rewrite !(tee_output_run _ _ _ _ _ _ _ _ _ _ Hc Hm). reflexivity.
    + unfold _tee_output. rewrite (choose_backend_rejects _ _ Hok). reflexivity.
  - intros mux proc Hc ->.
    destruct (multiplexer_captures _ _ _ sched proc Hc) as (records & Hm & _).
    rewrite (tee_output_run _ _ _ _ stdout stderr _ _ _ _ Hc Hm), Hm.
    cbn [fst snd].
    destruct (forward_trace_calls stdout stderr records) as [Co Ce].
    change (Launch :: forward_trace stdout stderr records)
      with ([Launch] ++ forward_trace stdout stderr records)%list.
    rewrite !sink_calls_app, Co, Ce. auto.
Qed.

(** C3. [_tee_output] calls the process factory only once the backend
    has been accepted.  A backend name other than "auto", "select" and
    "thread" makes it raise [ValueError], and "select" where the platform
    is not POSIX makes it raise [NotImplementedError], in both cases with
    no event at all, so without a call of the factory; a run in which the
    factory is called has an accepted backend, and with an accepted
    backend the factory is called once, before anything else. *)
Theorem tee_output_validates_before_launch (POSIX : bool)
    (make_proc : exn + process) (stdout stderr : bool) (backend : string)
    (sched : schedule) :
  let run := _tee_output POSIX make_proc stdout stderr backend sched in
  (backend <> "auto" -> backend <> "select" -> backend <> "thread" ->
   run = ([], Raised (ValueError "backend must be select, thread, or auto"))) /\
  (backend = "select" -> POSIX = false ->
   run = ([], Raised (NotImplementedError "select is only available on posix"))) /\
  (In Launch (fst run) -> backend_ok POSIX backend = true) /\
  (backend_ok POSIX backend = true ->
   exists rest, fst run = Launch :: rest /\ ~ In Launch rest).
Proof.
  intros run. subst run. repeat split.
  - intros Ha Hs Ht. unfold _tee_output, choose_backend.
    apply String.eqb_neq in Ha, Hs, Ht. rewrite Ha, Hs, Ht. reflexivity.
  - intros -> ->. reflexivity.
  - intros Hin.
    destruct (tee_output_cases POSIX make_proc stdout stderr backend sched)
      as [[Hok [e H]]|[[Hok _]|[Hok _]]]; try exact Hok.
    rewrite H in Hin. destruct Hin.
  - intros Hok.
    destruct (tee_output_cases POSIX make_proc stdout stderr backend sched)
      as [[Hno _]|[[_ (e & He & H)]|[_ (mux & proc & records & Hc & Hp & Hm & H)]]].
    + congruence.
    + rewrite H. exists []. split; [reflexivity|intros []].
    + rewrite H. eexists. split; [reflexivity|]. apply forward_trace_no_launch.
Qed.

(** C8. In every run of [_tee_output] that returns, the texts written to
    the sink passed for a stream are exactly the lines appended to the
    capture buffer of that stream, in the same order; nothing is written
    for a stream without a sink. *)
Theorem tee_forwarding_parity (POSIX : bool) (make_proc : exn + process)
    (stdout stderr : bool) (backend : string) (sched : schedule)
    (trace : list event) (proc' : process) (logged_out logged_err : list string) :
  _tee_output POSIX make_proc stdout stderr backend sched =
    (trace, Returned (proc', logged_out, logged_err)) ->
  written Out trace = (if stdout then logged_out else []) /\
  written Err trace = (if stderr then logged_err else []).
Proof.
  intros H.
  destruct (tee_output_returned _ _ _ _ _ _ _ _ _ _ H)
    as (mux & proc & records & _ & _ & _ & -> & -> & ->).
  destruct (forward_trace_written stdout stderr records) as [Wo We].
  change (Launch :: forward_trace stdout stderr records)
    with ([Launch] ++ forward_trace stdout stderr records)%list.
  rewrite !written_app, Wo, We. auto.
Qed.

(** C9. [_tee_output] takes an empty string in a record like [None]: it
    neither writes it to a sink nor appends it to a capture buffer.  No
    run writes [""] to a sink, and the capture buffers a run returns hold
    non-empty lines only, those of the records of the multiplexer. *)
Theorem tee_skips_empty_values (POSIX : bool) (make_proc : exn + process)
    (stdout stderr : bool) (backend : string) (sched : schedule) :
  let run := _tee_output POSIX make_proc stdout stderr backend sched in
  (forall (sd : side) (sink : bool) (logged : list string),
      tee_side sd sink (Some "") logged = ret logged) /\
  (forall (records : list merge_record) (ol el : option string),
      (ol = Some "" \/ ol = None) -> (el = Some "" \/ el = None) ->
      tee_records stdout stderr ((ol, el) :: records) [] [] =
        tee_records stdout stderr records [] []) /\
  (forall sd : side, ~ In (Write sd "") (fst run)) /\
  (forall (proc' : process) (logged_out logged_err : list string),
      snd run = Returned (proc', logged_out, logged_err) ->
      Forall (fun line => line <> "") logged_out /\
      Forall (fun line => line <> "") logged_err).
Proof.
  intros run. subst run. repeat split.
  - intros records ol el [-> | ->] [-> | ->];
      rewrite !tee_records_run; reflexivity.
  - intros sd Hin.
    destruct (tee_output_cases POSIX make_proc stdout stderr backend sched)
      as [[_ [e H]]|[[_ (e & He & H)]|[_ (mux & proc & records & Hc & Hp & Hm & H)]]];
      rewrite H in Hin; simpl in Hin.
    + exact Hin.
    + destruct Hin as [Hin|[]]. discriminate.
    + destruct Hin as [Hin|Hin]; [discriminate|].
      exact (forward_trace_no_empty_write _ _ _ _ Hin).
  - destruct (_tee_output POSIX make_proc stdout stderr backend sched)
      as [trace out] eqn:E. simpl in H. subst out.
    destruct (tee_output_returned _ _ _ _ _ _ _ _ _ _ E)
      as (mux & proc & records & _ & _ & _ & _ & -> & _).
    apply lines_of_nonempty.
  - destruct (_tee_output POSIX make_proc stdout stderr backend sched)
      as [trace out] eqn:E. simpl in H. subst out.
    destruct (tee_output_returned _ _ _ _ _ _ _ _ _ _ E)
      as (mux & proc & records & _ & _ & _ & _ & _ & ->).
    apply lines_of_nonempty.
Qed.

(** ** Properties of the command executor *)

Lemma returns_ret {A : Type} (a : A) : returns (ret a) a.
Proof. reflexivity. Qed.

Lemma returns_bind {A B : Type} (c : M A) (k : A -> M B) (a : A) (b : B) :
  returns c a -> returns (k a) b -> returns (bind c k) b.
Proof.
  unfold returns, bind. destruct c as [t o]. simpl. intros ->.
  destruct (k a) as [t' r]. simpl. auto.
Qed.

Lemma returns_bind_inv {A B : Type} (c : M A) (k : A -> M B) (b : B) :
  returns (bind c k) b -> exists a : A, returns c a /\ returns (k a) b.
Proof.
  unfold returns, bind. destruct c as [t [a|e|]]; simpl; try discriminate.
  destruct (k a) as [t' r] eqn:E. simpl. intros ->. exists a.
  rewrite E. auto.
Qed.

Lemma returns_when (b : bool) (c : M unit) :
  returns c tt -> returns (when b c) tt.
Proof. destruct b; [auto|reflexivity]. Qed.

Lemma returns_emit (ev : event) : returns (emit ev) tt.
Proof. reflexivity. Qed.

(** The dictionary [cmd] returns when it does not detach. *)
Lemma cmd_returns_info (sys : platform) (cmd_arg : command)
    (shell detach : bool) (verbose : Z) (tee : option bool)
    (cwd env : option string) (tee_backend : string) (kw : kwargs)
    (sched : schedule) (argv : string + list string) (proc : process) :
  detach_on detach kw = false ->
  unknown kw = [] ->
  returns (cmd_args sys cmd_arg shell) argv ->
  Popen sys {| args := argv; shell := shell; cwd := cwd; env := env |} = inr proc ->
  (tee_on tee verbose = true -> backend_ok (POSIX sys) tee_backend = true) ->
  returns (cmd sys cmd_arg shell detach verbose tee cwd env tee_backend kw sched)
    (<["out" := VStr (proc_stdout proc)]>
       (<["err" := VStr (proc_stderr proc)]>
          (<["ret" := VInt (returncode proc)]>
             (<["proc" := VProc (set_streams proc "" "")]>
                (<["command" := VStr (command_text sys cmd_arg)]> ∅))))).
Proof.
  intros Hdetach Hkw Hargs Hpopen Hbackend. unfold cmd.
  apply (returns_bind _ _ false).
  { unfold detach_on in Hdetach. destruct (detatch kw); subst; reflexivity. }
  apply (returns_bind _ _ tt).
  { rewrite Hkw. reflexivity. }
  apply (returns_bind _ _ argv); [exact Hargs|].
  apply (returns_bind _ _ tt).
  { apply returns_when. apply (returns_bind _ _ tt); [|reflexivity].
    apply returns_when. reflexivity. }
  cbn iota. rewrite Hpopen.
  apply (returns_bind _ _ (set_streams proc "" "", proc_stdout proc, proc_stderr proc)).
  - fold (tee_on tee verbose). destruct (tee_on tee verbose) eqn:Htee.
    + specialize (Hbackend eq_refl).
      destruct (tee_output_cases (POSIX sys) (inr proc) true true tee_backend sched)
        as [[Hno _]|[[_ (e & He & _)]|[_ (mux & p & records & Hc & Hp & Hm & H)]]];
        [congruence|discriminate|].
      injection Hp as <-.
      destruct (multiplexer_captures _ _ _ sched proc Hc) as (records' & Hm' & Jo & Je).
      rewrite Hm in Hm'. injection Hm' as <-.
      rewrite H. unfold returns. simpl. rewrite Jo, Je. reflexivity.
    + reflexivity.
  - apply (returns_bind _ _ tt); [|reflexivity].
    apply returns_when. reflexivity.
Qed.

(** C1. When [cmd] does not detach and starts a child process that
    writes exactly "hello" and a newline to stdout, writes nothing to
    stderr and exits with code 0, it returns a dictionary whose ['out'] is
    that text, whose ['err'] is [""] and whose ['ret'] is 0: with and
    without tee, with either backend, and whatever the schedule of the
    reads. *)
Theorem cmd_hello (sys : platform) (cmd_arg : command)
    (shell detach : bool) (verbose : Z) (tee : option bool)
    (cwd env : option string) (tee_backend : string) (kw : kwargs)
    (sched : schedule) (argv : string + list string) (proc : process) :
  detach_on detach kw = false ->
  unknown kw = [] ->
  returns (cmd_args sys cmd_arg shell) argv ->
  Popen sys {| args := argv; shell := shell; cwd := cwd; env := env |} = inr proc ->
  (tee_on tee verbose = true -> backend_ok (POSIX sys) tee_backend = true) ->
  proc_stdout proc = "hello" ++ nl ->
  proc_stderr proc = "" ->
  returncode proc = 0%Z ->
  exists info : gmap string value,
    returns (cmd sys cmd_arg shell detach verbose tee cwd env tee_backend kw sched)
            info /\
    info !! "out" = Some (VStr ("hello" ++ nl)) /\
    info !! "err" = Some (VStr "") /\
    info !! "ret" = Some (VInt 0).
Proof.
  intros Hdetach Hkw Hargs Hpopen Hbackend Hout Herr Hret.
  eexists. split.
  - apply (cmd_returns_info sys cmd_arg shell detach verbose tee cwd env
             tee_backend kw sched argv proc); assumption.
  - rewrite Hout, Herr, Hret. repeat split; by simplify_map_eq.
Qed.

(** C10. Whenever [cmd] returns a dictionary, detached or not, its
    ['command'] is the command text computed before the launch: the
    command itself when it is given as a text, and the elements of the
    sequence, each quoted by [pipes.quote], joined by single spaces when
    it is given as a sequence. *)
Theorem cmd_command_field (sys : platform) (cmd_arg : command)
    (shell detach : bool) (verbose : Z) (tee : option bool)
    (cwd env : option string) (tee_backend : string) (kw : kwargs)
    (sched : schedule) (info : gmap string value) :
  returns (cmd sys cmd_arg shell detach verbose tee cwd env tee_backend kw sched)
          info ->
  info !! "command" =
    Some (VStr match cmd_arg with
               | Text s => s
               | Tup l => String.concat " " (map (quote sys) l)
               end).
Proof.
  intros H. unfold cmd in H.
  apply returns_bind_inv in H as (detach' & _ & H).
  apply returns_bind_inv in H as (_ & _ & H).
  apply returns_bind_inv in H as (argv & _ & H).
  apply returns_bind_inv in H as (_ & _ & H).
  fold (command_text sys cmd_arg) in *.
  destruct detach'.
  - apply returns_bind_inv in H as (proc & _ & H).
    apply returns_bind_inv in H as (_ & _ & H).
    unfold returns in H. simpl in H. injection H as <-.
    destruct cmd_arg; by simplify_map_eq.
  - apply returns_bind_inv in H as ([[proc out] err] & _ & H).
    apply returns_bind_inv in H as (_ & _ & H).
    unfold returns in H. simpl in H. injection H as <-.
    destruct cmd_arg; by simplify_map_eq.
Qed.

(** ** The properties on the sample runs *)

Lemma tee_captures_regardless_of_sinks_witness :
  snd (_tee_output true (inr hello) true false "thread" sample_sched) =
    Returned (set_streams hello "" "", ["hello" ++ nl], []) /\
  sink_calls Out (fst (_tee_output true (inr hello) true false "thread" sample_sched)) =
    [Write Out ("hello" ++ nl); Flush Out] /\
  sink_calls Err (fst (_tee_output true (inr hello) true false "thread" sample_sched)) =
    [].
Proof.
  destruct (tee_captures_regardless_of_sinks
              true (inr hello) true false "thread" sample_sched) as [_ H].
  exact (H _proc_iteroutput_thread hello eq_refl eq_refl).
Defined.

Lemma tee_output_validates_before_launch_witness :
  _tee_output true (inr hello) true true "popen" sample_sched =
    ([], Raised (ValueError "backend must be select, thread, or auto")) /\
  _tee_output false (inr hello) true true "select" sample_sched =
    ([], Raised (NotImplementedError "select is only available on posix")) /\
  (exists rest,
      fst (_tee_output true (inr hello) true true "select" sample_sched) =
        Launch :: rest /\ ~ In Launch rest).
Proof.
  split; [|split].
  - apply (proj1 (tee_output_validates_before_launch
                    true (inr hello) true true "popen" sample_sched));
      discriminate.
  - apply (proj1 (proj2 (tee_output_validates_before_launch
                           false (inr hello) true true "select" sample_sched)));
      reflexivity.
  - apply (proj2 (proj2 (proj2 (tee_output_validates_before_launch
                                  true (inr hello) true true "select" sample_sched)))).
    reflexivity.
Defined.

Lemma tee_forwarding_parity_witness :
  _tee_output true (inr hello) true true "select" sample_sched =
    ([Launch; Write Out ("hello" ++ nl); Flush Out],
     Returned (set_streams hello "" "", ["hello" ++ nl], [])) /\
  written Out (fst (_tee_output true (inr hello) true true "select" sample_sched)) =
    ["hello" ++ nl] /\
  written Err (fst (_tee_output true (inr hello) true true "select" sample_sched)) =
    [].
Proof.
  split; [reflexivity|].
  exact (tee_forwarding_parity
           true (inr hello) true true "select" sample_sched
           [Launch; Write Out ("hello" ++ nl); Flush Out]
           (set_streams hello "" "") ["hello" ++ nl] [] eq_refl).
Defined.

Lemma tee_skips_empty_values_witness :
  In (Some "", None) (fst (fst (_proc_iteroutput_thread sample_sched hello))) /\
  snd (_tee_output true (inr hello) true true "thread" sample_sched) =
    Returned (set_streams hello "" "", ["hello" ++ nl], []) /\
  Forall (fun line => line <> "") ["hello" ++ nl] /\
  Forall (fun line : string => line <> "") [].
Proof.
  split; [right; right; left; reflexivity|].
  split; [reflexivity|].
  exact (proj2 (proj2 (proj2 (tee_skips_empty_values
                                true (inr hello) true true "thread" sample_sched)))
           (set_streams hello "" "") ["hello" ++ nl] [] eq_refl).
Defined.

Lemma cmd_hello_witness :
  exists info : gmap string value,
    returns (cmd sample_platform (Tup ["echo"; "hello"]) false false 1 None None None
                 "auto" no_kwargs sample_sched) info /\
    info !! "out" = Some (VStr ("hello" ++ nl)) /\
    info !! "err" = Some (VStr "") /\
    info !! "ret" = Some (VInt 0).
Proof.
  apply (cmd_hello sample_platform (Tup ["echo"; "hello"]) false false 1 None
           None None "auto" no_kwargs sample_sched (inr ["echo"; "hello"]) hello);
    reflexivity.
Defined.

Lemma cmd_command_field_witness :
  returns (cmd sample_platform (Tup ["echo"; "hello"]) true true 0 None None None
               "auto" no_kwargs sample_sched)
          (<["proc" := VProc hello]> (<["command" := VStr "'echo' 'hello'"]> ∅)) /\
  (<["proc" := VProc hello]> (<["command" := VStr "'echo' 'hello'"]> ∅)
     : gmap string value) !! "command" = Some (VStr "'echo' 'hello'").
Proof.
  assert (returns (cmd sample_platform (Tup ["echo"; "hello"]) true true 0 None
                       None None "auto" no_kwargs sample_sched)
                  (<["proc" := VProc hello]>
                     (<["command" := VStr "'echo' 'hello'"]> ∅))) as H
    by reflexivity.
  split; [exact H|].
  exact (cmd_command_field _ _ _ _ _ _ _ _ _ _ _ _ H).
Defined.

(** ** Further properties of the multiplexers *)

Lemma lines_of_some_lines (xs : list string) :
  Forall (fun line => line <> "") xs -> lines_of (map Some xs) = xs.
Proof.
  induction 1 as [|x xs Hx _ IH]; [reflexivity|].
  change (map Some (x :: xs)) with (Some x :: map Some xs).
  rewrite lines_of_cons, IH. destruct x; [congruence|reflexivity].
Qed.

(** Reading some lines first and iterating over the rest yields the
    lines of the whole stream; the reads at the end of the stream give
    [""], which is not a line. *)
Lemma reads_then_iterlines (n : nat) (stream : string) :
  (lines_of (map Some (fst (reads n stream))) ++
   fst (_textio_iterlines (snd (reads n stream))))%list =
    fst (_textio_iterlines stream).
Proof.
  revert stream. induction n as [|n IH]; intros stream; [reflexivity|].
  cbn [reads]. destruct (readline stream) as [line rest] eqn:E.
  specialize (IH rest). destruct (reads n rest) as [lines final].
  cbn [fst snd map] in *. rewrite (lines_of_cons (Some line) (map Some lines)).
  rewrite <- app_assoc, IH.
  destruct (string_dec line "") as [->|Hne].
  - assert (stream = "") as -> by (apply readline_eof; rewrite E; reflexivity).
    simpl in E. injection E as <-. reflexivity.
  - rewrite (iterlines_cons _ _ _ E Hne). destruct line; [congruence|reflexivity].
Qed.

Lemma thread_lines (sched : schedule) (proc : process) :
  exists records : list merge_record,
    _proc_iteroutput_thread sched proc = (records, true, set_streams proc "" "") /\
    lines_of (map fst records) = fst (_textio_iterlines (proc_stdout proc)) /\
    lines_of (map snd records) = fst (_textio_iterlines (proc_stderr proc)).
Proof.
  unfold _proc_iteroutput_thread, _proc_async_iter_stream.
  rewrite !enqueue_output_items.
  set (qo := {| puts := _; waits := out_waits sched |}).
  set (qe := {| puts := _; waits := err_waits sched |}).
  destruct (merge_loop_captures (queue_work qo + queue_work qe) (merge_start qo qe))
    as (records & Hloop & Ro & Re).
  - simpl. eexists. reflexivity.
  - simpl. eexists. reflexivity.
  - simpl. lia.
  - exists records. rewrite Hloop, Ro, Re. simpl.
    rewrite !map_app, !lines_of_app.
    rewrite (lines_of_some_lines (fst (_textio_iterlines (snd (reads (out_polls sched) (proc_stdout proc))))))
      by apply iterlines_nonempty.
    rewrite (lines_of_some_lines (fst (_textio_iterlines (snd (reads (err_polls sched) (proc_stderr proc))))))
      by apply iterlines_nonempty.
    change (lines_of [None]) with (@nil string).
    rewrite !app_nil_r, !reads_then_iterlines. auto.
Qed.

Lemma select_live_lines (wakes : list (bool * bool)) (proc : process) :
  (lines_of (map fst (fst (select_live wakes proc))) ++
   fst (_textio_iterlines (proc_stdout (snd (select_live wakes proc)))))%list =
    fst (_textio_iterlines (proc_stdout proc)) /\
  (lines_of (map snd (fst (select_live wakes proc))) ++
   fst (_textio_iterlines (proc_stderr (snd (select_live wakes proc)))))%list =
    fst (_textio_iterlines (proc_stderr proc)).
Proof.
  revert proc. induction wakes as [|ready wakes IH]; intros proc.
  - simpl. auto.
  - cbn [select_live]. rewrite select_readlines_ready.
    set (proc1 := set_streams proc _ _).
    destruct (IH proc1) as (Lo & Le).
    destruct (select_live wakes proc1) as [records final].
    cbn [fst snd map] in *.
    rewrite (lines_of_cons _ (map fst records)), (lines_of_cons _ (map snd records)).
    rewrite <- !app_assoc, Lo, Le. subst proc1. simpl.
    destruct ready as [ro re]. simpl.
    pose proof (reads_then_iterlines 1 (proc_stdout proc)) as Ro.
    pose proof (reads_then_iterlines 1 (proc_stderr proc)) as Re.
    cbn [reads] in Ro, Re.
    destruct (readline (proc_stdout proc)) as [lo so].
    destruct (readline (proc_stderr proc)) as [le se].
    cbn [fst snd map] in *.
    split; [destruct ro|destruct re]; auto.
Qed.

Lemma select_lines (sched : schedule) (proc : process) :
  exists records : list merge_record,
    _proc_iteroutput_select sched proc = (records, true, set_streams proc "" "") /\
    lines_of (map fst records) = fst (_textio_iterlines (proc_stdout proc)) /\
    lines_of (map snd records) = fst (_textio_iterlines (proc_stderr proc)).
Proof.
  unfold _proc_iteroutput_select.
  destruct (select_live_captures (wakeups sched) proc) as (_ & _ & Rc).
  destruct (select_live_lines (wakeups sched) proc) as (Lo & Le).
  destruct (select_live (wakeups sched) proc) as [live proc1].
  rewrite select_drain_eq. cbn [fst snd] in *.
  eexists. split.
  - unfold set_streams. rewrite Rc. reflexivity.
  - rewrite !map_app, !lines_of_app, zip_longest_fst, zip_longest_snd.
    rewrite !lines_of_some_lines by apply iterlines_nonempty. auto.
Qed.

Lemma multiplexer_lines (POSIX : bool) (backend : string) (mux : multiplexer)
    (sched : schedule) (proc : process) :
  choose_backend POSIX backend = ret mux ->
  exists records : list merge_record,
    mux sched proc = (records, true, set_streams proc "" "") /\
    lines_of (map fst records) = fst (_textio_iterlines (proc_stdout proc)) /\
    lines_of (map snd records) = fst (_textio_iterlines (proc_stderr proc)).
Proof.
  intros H. destruct (choose_backend_returns _ _ _ H) as [_ [-> | ->]].
  - apply select_lines.
  - apply thread_lines.
Qed.

(** X1. Whatever the schedule of the polls and of the queues, the
    thread-based multiplexer ends, leaves both pipes of the process
    exhausted and its exit code untouched, and on each side the values it
    yields that are lines (neither [None] nor [""]) are exactly the lines
    of that stream, in the order of the stream. *)
Theorem thread_multiplexer_delivers (sched : schedule) (proc : process) :
  let run := _proc_iteroutput_thread sched proc in
  snd (fst run) = true /\
  proc_stdout (snd run) = "" /\ proc_stderr (snd run) = "" /\
  returncode (snd run) = returncode proc /\
  lines_of (map fst (fst (fst run))) = fst (_textio_iterlines (proc_stdout proc)) /\
  lines_of (map snd (fst (fst run))) = fst (_textio_iterlines (proc_stderr proc)) /\
  join (lines_of (map fst (fst (fst run)))) = proc_stdout proc /\
  join (lines_of (map snd (fst (fst run)))) = proc_stderr proc.
Proof.
  intros run. subst run.
  destruct (thread_lines sched proc) as (records & -> & Lo & Le).
  cbn [fst snd]. rewrite Lo, Le, !iterlines_join. repeat split.
Qed.


Lemma merge_loop_sides (fuel : nat) (st : merge_state) :
  Forall (fun r : merge_record => fst r <> None \/ snd r <> None)
         (fst (merge_loop fuel st)).
Proof.
  revert st. induction fuel as [|fuel IH]; intros st; simpl.
  - destruct (stdout_live st || stderr_live st); constructor.
  - destruct (stdout_live st || stderr_live st); [|constructor].
    unfold merge_iteration.
    destruct (poll_side (stdout_live st) (stdout_queue st) (oline st)) as [[qo olive] ol].
    destruct (poll_side (stderr_live st) (stderr_queue st) (eline st)) as [[qe elive] el].
    match goal with
    | |- context [merge_loop fuel ?s] =>
        specialize (IH s); destruct (merge_loop fuel s) as [records ended]
    end.
    simpl in *.
    destruct ol as [ol|], el as [el|]; simpl; try exact IH;
      constructor; try exact IH; simpl; [left|left|right]; discriminate.
Qed.

(** X3. Every record the thread-based multiplexer yields has a value on
    at least one side: it never yields [(None, None)]. *)
Theorem thread_records_have_a_side (sched : schedule) (proc : process) :
  Forall (fun r : merge_record => fst r <> None \/ snd r <> None)
         (fst (fst (_proc_iteroutput_thread sched proc))).
Proof.
  unfold _proc_iteroutput_thread.
  destruct (_proc_async_iter_stream (out_polls sched) (out_waits sched) (proc_stdout proc))
    as [qo out].
  destruct (_proc_async_iter_stream (err_polls sched) (err_waits sched) (proc_stderr proc))
    as [qe err].
  pose proof (merge_loop_sides (queue_work qo + queue_work qe) (merge_start qo qe)) as H.
  destruct (merge_loop (queue_work qo + queue_work qe) (merge_start qo qe)).
  exact H.
Qed.

Lemma select_live_pattern (wakes : list (bool * bool)) (proc : process) :
  map (fun r : merge_record => (is_not_none (fst r), is_not_none (snd r)))
      (fst (select_live wakes proc)) = wakes.
Proof.
  revert proc. induction wakes as [|[ro re] wakes IH]; intros proc; [reflexivity|].
  cbn [select_live]. rewrite select_readlines_ready.
  set (proc1 := set_streams proc _ _). specialize (IH proc1).
  destruct (select_live wakes proc1) as [records final].
  cbn [fst snd map] in *. rewrite IH. destruct ro, re; reflexivity.
Qed.

(** X4. While the process runs, the select-based multiplexer yields one
    record for each wake-up of [select], and the record has a value on a
    side exactly when that side was reported ready (the value is [""]
    when the ready stream was at its end). *)
Theorem select_record_per_wakeup (sched : schedule) (proc : process) :
  map (fun r : merge_record => (is_not_none (fst r), is_not_none (snd r)))
      (take (length (wakeups sched))
            (fst (fst (_proc_iteroutput_select sched proc)))) = wakeups sched.
Proof.
  unfold _proc_iteroutput_select.
  pose proof (select_live_pattern (wakeups sched) proc) as H.
  destruct (select_live (wakeups sched) proc) as [live proc1].
  destruct (select_drain proc1) as [rest final]. cbn [fst snd] in *.
  assert (length live = length (wakeups sched)) as Hlen.
  { pose proof (f_equal length H) as Hl. rewrite length_map in Hl. exact Hl. }
  rewrite <- Hlen, take_app_length. exact H.
Qed.

(** ** Further properties of the tee controller and the command executor *)



Lemma cmd_args_ret (sys : platform) (cmd_arg : command) (shell : bool)
    (argv : string + list string) :
  returns (cmd_args sys cmd_arg shell) argv ->
  cmd_args sys cmd_arg shell = ret argv.
Proof.
  unfold returns, cmd_args.
  destruct (shell || win32 sys); simpl.
  - intros [= <-]. reflexivity.
  - destruct cmd_arg as [s|l]; simpl.
    + destruct (shlex_split sys s); simpl; [|discriminate].
      intros [= <-]. reflexivity.
    + intros [= <-]. reflexivity.
Qed.

Lemma not_positive (verbose : Z) :
  (verbose <= 0)%Z ->
  (verbose >? 0)%Z = false /\ (verbose >? 1)%Z = false /\ (verbose >? 2)%Z = false.
Proof. intros H. repeat split; rewrite Z.gtb_ltb; apply Z.ltb_ge; lia. Qed.



Lemma tee_output_rejects (POSIX : bool) (make_proc : exn + process)
    (stdout stderr : bool) (backend : string) (sched : schedule) :
  backend_ok POSIX backend = false ->
  _tee_output POSIX make_proc stdout stderr backend sched =
    raise (if (backend =? "select")%string
           then NotImplementedError "select is only available on posix"
           else ValueError "backend must be select, thread, or auto").
Proof.
  intros Hok. unfold _tee_output. rewrite (choose_backend_rejects _ _ Hok).
  reflexivity.
Qed.

Lemma tee_output_lines (POSIX : bool) (proc : process) (stdout stderr : bool)
    (backend : string) (sched : schedule) :
  backend_ok POSIX backend = true ->
  exists records : list merge_record,
    _tee_output POSIX (inr proc) stdout stderr backend sched =
      (Launch :: forward_trace stdout stderr records,
       Returned (set_streams proc "" "",
                 lines_of (map fst records), lines_of (map snd records))) /\
    lines_of (map fst records) = fst (_textio_iterlines (proc_stdout proc)) /\
    lines_of (map snd records) = fst (_textio_iterlines (proc_stderr proc)).
Proof.
  intros Hok.
  assert (exists mux, choose_backend POSIX backend = ret mux) as [mux Hc].
  { destruct (choose_backend_ok _ _ Hok); eauto. }
  destruct (multiplexer_lines _ _ _ sched proc Hc) as (records & Hm & Lo & Le).
  exists records. rewrite (tee_output_run _ _ _ _ _ _ _ _ _ _ Hc Hm). auto.
Qed.

(** The steps shared by the proofs about the trace of [cmd]: settle the
    keyword arguments and the verbosity tests, then run the binds. *)
Ltac cmd_prologue kw verbose :=
  destruct (detatch kw) as [?d|];
  destruct (verbose >? 0)%Z eqn:?V0, (verbose >? 1)%Z eqn:?V1,
           (verbose >? 2)%Z eqn:?V2;
  cbn [bind ret raise emit when app print_banner call_make_proc].

(** X7. A detached run of [cmd] whose child starts returns a dictionary
    that holds the process, its pipes unread, under ['proc'] and the
    command text under ['command'], and nothing under ['out'], ['err']
    and ['ret'], whatever [tee] and the backend name are.  It calls the
    factory once and the tee never runs: no [write] or [flush] is made
    for the child.  With [verbose] at most 1, all that [sys.stdout]
    receives is the line "...detaching", and only when [verbose] is 1. *)
Theorem cmd_detach_returns_process (sys : platform) (cmd_arg : command)
    (shell detach : bool) (verbose : Z) (tee : option bool)
    (cwd env : option string) (tee_backend : string) (kw : kwargs)
    (sched : schedule) (argv : string + list string) (proc : process) :
  detach_on detach kw = true ->
  unknown kw = [] ->
  returns (cmd_args sys cmd_arg shell) argv ->
  Popen sys {| args := argv; shell := shell; cwd := cwd; env := env |} = inr proc ->
  exists (trace : list event) (info : gmap string value),
    cmd sys cmd_arg shell detach verbose tee cwd env tee_backend kw sched =
      (trace, Returned info) /\
    info !! "proc" = Some (VProc proc) /\
    info !! "command" = Some (VStr (command_text sys cmd_arg)) /\
    info !! "out" = None /\ info !! "err" = None /\ info !! "ret" = None /\
    List.filter (fun ev => match ev with Launch => true | _ => false end) trace =
      [Launch] /\
    Forall (fun ev => match ev with
                      | Write _ _ | Flush _ => False
                      | _ => True
                      end) trace /\
    ((verbose <= 1)%Z ->
     sys_stdout_text trace =
       if (verbose >? 0)%Z then "...detaching" ++ nl else "").
Proof.
  intros Hdetach Hkw Hargs Hpopen. apply cmd_args_ret in Hargs.
  unfold cmd, detach_on in *. rewrite Hkw, Hargs.
  cmd_prologue kw verbose; subst; rewrite Hpopen;
    cbn [bind ret emit when app call_make_proc];
    eexists; eexists; (split; [reflexivity|]);
    repeat (split; [reflexivity|]);
    (split; [repeat constructor|]);
    intros Hle; try (apply Z.gtb_lt in V1; lia); reflexivity.
Qed.

Lemma cmd_detach_returns_process_witness :
  exists (trace : list event) (info : gmap string value),
    cmd sample_platform (Tup ["echo"; "hello"]) false true 1 (Some true) None None
        "popen" no_kwargs sample_sched = (trace, Returned info) /\
    info !! "proc" = Some (VProc hello) /\
    info !! "command" = Some (VStr "'echo' 'hello'") /\
    info !! "out" = None /\ info !! "err" = None /\ info !! "ret" = None /\
    List.filter (fun ev => match ev with Launch => true | _ => false end) trace =
      [Launch] /\
    Forall (fun ev => match ev with
                      | Write _ _ | Flush _ => False
                      | _ => True
                      end) trace /\
    ((1 <= 1)%Z -> sys_stdout_text trace = "...detaching" ++ nl).
Proof.
  apply (cmd_detach_returns_process sample_platform (Tup ["echo"; "hello"]) false
           true 1 (Some true) None None "popen" no_kwargs sample_sched
           (inr ["echo"; "hello"]) hello); reflexivity.
Defined.

(** X8. When [cmd] tees and does not detach, a backend that
    [_tee_output] does not accept makes [cmd] raise the error of
    [_tee_output] ([NotImplementedError] for "select" off POSIX,
    [ValueError] for an unknown name) without calling the factory: no
    process is started. *)
Theorem cmd_rejects_backend_before_launch (sys : platform) (cmd_arg : command)
    (shell detach : bool) (verbose : Z) (tee : option bool)
    (cwd env : option string) (tee_backend : string) (kw : kwargs)
    (sched : schedule) (argv : string + list string) :
  detach_on detach kw = false ->
  unknown kw = [] ->
  returns (cmd_args sys cmd_arg shell) argv ->
  tee_on tee verbose = true ->
  backend_ok (POSIX sys) tee_backend = false ->
  exists trace : list event,
    cmd sys cmd_arg shell detach verbose tee cwd env tee_backend kw sched =
      (trace,
       Raised (if (tee_backend =? "select")%string
               then NotImplementedError "select is only available on posix"
               else ValueError "backend must be select, thread, or auto")) /\
    ~ In Launch trace.
Proof.
  intros Hdetach Hkw Hargs Htee Hok. apply cmd_args_ret in Hargs.
  unfold cmd, detach_on, tee_on in *. rewrite Hkw, Hargs.
  destruct tee as [[|]|]; try discriminate;
    cmd_prologue kw verbose; subst; try discriminate;
    rewrite (tee_output_rejects _ _ _ _ _ _ Hok);
    cbn [bind ret raise emit when app];
    (eexists; split; [reflexivity|]);
    simpl; intuition discriminate.
Qed.

Lemma cmd_rejects_backend_before_launch_witness :
  exists trace : list event,
    cmd sample_platform (Tup ["echo"; "hello"]) false false 1 None None None
        "popen" no_kwargs sample_sched =
      (trace, Raised (ValueError "backend must be select, thread, or auto")) /\
    ~ In Launch trace.
Proof.
  apply (cmd_rejects_backend_before_launch sample_platform (Tup ["echo"; "hello"])
           false false 1 None None None "popen" no_kwargs sample_sched
           (inr ["echo"; "hello"])); reflexivity.
Defined.

(** X9. When the program cannot be started, [cmd] raises the error of
    [Popen] in every mode (detached, teeing or not) and returns no
    dictionary; the factory has been called once, and with [verbose] at
    most 1 [sys.stdout] has received nothing. *)
Theorem cmd_propagates_launch_error (sys : platform) (cmd_arg : command)
    (shell detach : bool) (verbose : Z) (tee : option bool)
    (cwd env : option string) (tee_backend : string) (kw : kwargs)
    (sched : schedule) (argv : string + list string) (e : exn) :
  unknown kw = [] ->
  returns (cmd_args sys cmd_arg shell) argv ->
  Popen sys {| args := argv; shell := shell; cwd := cwd; env := env |} = inl e ->
  (detach_on detach kw = false -> tee_on tee verbose = true ->
   backend_ok (POSIX sys) tee_backend = true) ->
  exists trace : list event,
    cmd sys cmd_arg shell detach verbose tee cwd env tee_backend kw sched =
      (trace, Raised e) /\
    List.filter (fun ev => match ev with Launch => true | _ => false end) trace =
      [Launch] /\
    ((verbose <= 1)%Z -> sys_stdout_text trace = "").
Proof.
  intros Hkw Hargs Hpopen Hok. apply cmd_args_ret in Hargs.
  assert (forall so se,
             backend_ok (POSIX sys) tee_backend = true ->
             _tee_output (POSIX sys) (inl e) so se tee_backend sched =
               ([Launch], Raised e)) as Htee.
  { intros so se H. destruct (choose_backend_ok _ _ H) as [Hc|Hc];
      unfold _tee_output; rewrite Hc; reflexivity. }
  unfold cmd, detach_on, tee_on in *. rewrite Hkw, Hargs.
  destruct tee as [[|]|]; cmd_prologue kw verbose; subst; rewrite Hpopen;
    try match goal with
        | |- context [if ?b then _ else _] => destruct b
        end;
    rewrite ?Htee by (apply Hok; reflexivity);
    cbn [bind ret raise emit when app call_make_proc];
    (eexists; split; [reflexivity|]); (split; [reflexivity|]);
    intros Hle; try (apply Z.gtb_lt in V1; lia); reflexivity.
Qed.

Lemma cmd_propagates_launch_error_witness :
  exists trace : list event,
    cmd no_exec_platform (Text "nothing") false false 1 None None None
        "thread" no_kwargs sample_sched =
      (trace, Raised (OSError "No such file or directory")) /\
    List.filter (fun ev => match ev with Launch => true | _ => false end) trace =
      [Launch] /\
    ((1 <= 1)%Z -> sys_stdout_text trace = "").
Proof.
  apply (cmd_propagates_launch_error no_exec_platform (Text "nothing") false
           false 1 None None None "thread" no_kwargs sample_sched
           (inr ["nothing"])); reflexivity.
Defined.

(** X10. With [verbose] at most 0, no tee and no deprecated keyword
    argument, [cmd] is silent: the only thing it does is to call the
    factory once; it prints nothing and writes nothing to the forward
    sinks, detached or not, whether or not the child starts. *)
Theorem cmd_silent (sys : platform) (cmd_arg : command)
    (shell detach : bool) (verbose : Z) (tee : option bool)
    (cwd env : option string) (tee_backend : string) (kw : kwargs)
    (sched : schedule) (argv : string + list string) :
  (verbose <= 0)%Z ->
  tee_on tee verbose = false ->
  detatch kw = None ->
  unknown kw = [] ->
  returns (cmd_args sys cmd_arg shell) argv ->
  fst (cmd sys cmd_arg shell detach verbose tee cwd env tee_backend kw sched) =
    [Launch].
Proof.
  intros Hv Htee Hd Hkw Hargs. apply cmd_args_ret in Hargs.
  destruct (not_positive verbose Hv) as (V0 & V1 & V2).
  unfold cmd, tee_on in *. rewrite Hd, Hkw, Hargs, V0, V1, V2.
  cbn [bind ret raise emit when app print_banner call_make_proc].
  destruct (Popen sys {| args := argv; shell := shell; cwd := cwd; env := env |})
    as [e|proc];
    destruct detach; destruct tee as [[|]|]; try discriminate; reflexivity.
Qed.

Lemma cmd_silent_witness :
  fst (cmd sample_platform (Text "echo hello") true false 0 None None None
           "auto" no_kwargs sample_sched) = [Launch].
Proof.
  apply (cmd_silent sample_platform (Text "echo hello") true false 0 None None
           None "auto" no_kwargs sample_sched (inl "echo hello"));
    reflexivity || (intros H; discriminate H).
Defined.

Lemma sink_calls_other (sd : side) (ev : event) (trace : list event) :
  match ev with Write _ _ | Flush _ => False | _ => True end ->
  sink_calls sd (ev :: trace) = sink_calls sd trace.
Proof. destruct ev; intros []; reflexivity. Qed.

Lemma written_other (sd : side) (ev : event) (trace : list event) :
  match ev with Write _ _ => False | _ => True end ->
  written sd (ev :: trace) = written sd trace.
Proof. destruct ev; intros []; reflexivity. Qed.

Lemma forward_trace_tee_events (stdout stderr : bool)
    (records : list merge_record) :
  Forall tee_event (forward_trace stdout stderr records).
Proof.
  induction records as [|[ol el] records IH]; [constructor|].
  rewrite forward_trace_cons. rewrite !Forall_app. repeat split; [| |exact IH].
  - destruct ol as [[|? ?]|], stdout; repeat constructor.
  - destruct el as [[|? ?]|], stderr; repeat constructor.
Qed.

Lemma sys_stdout_text_tee (trace : list event) :
  Forall tee_event trace -> sys_stdout_text trace = join (written Out trace).
Proof.
  unfold sys_stdout_text, written.
  induction 1 as [|ev trace Hev _ IH]; [reflexivity|].
  destruct ev as [|[|] text|sd|text|text]; simpl in Hev; try contradiction;
    cbn [flat_map side_eqb app]; rewrite ?join_cons, ?IH; reflexivity.
Qed.

(** X11. When [cmd] tees, does not detach and [verbose] is at most 1 (so
    that [cmd] prints no banner), without the deprecated keyword
    argument, all that happens is the launch and the calls of the tee:
    the calls on [sys.stdout] are one [write] for each line of the
    child's stdout, in order, each followed at once by a [flush], and
    the same on [sys.stderr] for the child's stderr.  The text
    [sys.stdout] receives is the text returned under ['out'], and the
    text written to [sys.stderr] the one returned under ['err']. *)
Theorem cmd_tee_echoes_output (sys : platform) (cmd_arg : command)
    (shell detach : bool) (verbose : Z) (tee : option bool)
    (cwd env : option string) (tee_backend : string) (kw : kwargs)
    (sched : schedule) (argv : string + list string) (proc : process) :
  detach = false ->
  detatch kw = None ->
  unknown kw = [] ->
  (verbose <= 1)%Z ->
  returns (cmd_args sys cmd_arg shell) argv ->
  Popen sys {| args := argv; shell := shell; cwd := cwd; env := env |} = inr proc ->
  tee_on tee verbose = true ->
  backend_ok (POSIX sys) tee_backend = true ->
  let trace :=
    fst (cmd sys cmd_arg shell detach verbose tee cwd env tee_backend kw sched) in
  Forall tee_event trace /\
  sink_calls Out trace =
    write_flush Out (fst (_textio_iterlines (proc_stdout proc))) /\
  sink_calls Err trace =
    write_flush Err (fst (_textio_iterlines (proc_stderr proc))) /\
  sys_stdout_text trace = proc_stdout proc /\
  join (written Err trace) = proc_stderr proc.
Proof.
  intros Hdetach Hd Hkw Hle Hargs Hpopen Htee Hok trace. subst trace detach.
  apply cmd_args_ret in Hargs.
  destruct (tee_output_lines (POSIX sys) proc true true tee_backend sched Hok)
    as (records & Hrun & Lo & Le).
  destruct (forward_trace_calls true true records) as [Co Ce].
  destruct (forward_trace_written true true records) as [Wo We].
  rewrite Lo in Co, Wo. rewrite Le in Ce, We.
  assert (fst (cmd sys cmd_arg shell false verbose tee cwd env tee_backend kw sched) =
            Launch :: forward_trace true true records) as Htrace.
  { unfold cmd, tee_on in *. rewrite Hd, Hkw, Hargs.
    destruct tee as [[|]|]; try discriminate;
      destruct (verbose >? 0)%Z eqn:V0, (verbose >? 1)%Z eqn:V1,
               (verbose >? 2)%Z eqn:V2;
      try discriminate;
      try (apply Z.gtb_lt in V1; lia); try (apply Z.gtb_lt in V2; lia);
      cbn [bind ret raise emit when app print_banner call_make_proc];
      rewrite Hpopen, Hrun;
      cbn [bind ret raise emit when app communicate fst snd];
      rewrite ?app_nil_r; reflexivity. }
  rewrite Htrace.
  assert (Forall tee_event (Launch :: forward_trace true true records)) as Hev.
  { constructor; [exact I|apply forward_trace_tee_events]. }
  split; [exact Hev|].
  rewrite (sys_stdout_text_tee _ Hev).
  rewrite (sink_calls_other Out Launch) by exact I.
  rewrite (sink_calls_other Err Launch) by exact I.
  rewrite !(written_other _ Launch) by exact I.
  rewrite Co, Ce, Wo, We, !iterlines_join. repeat split.
Qed.

Lemma cmd_tee_echoes_output_witness :
  Forall tee_event
    (fst (cmd sample_platform (Tup ["echo"; "hello"]) false false 1 None None None
              "select" no_kwargs sample_sched)) /\
  sink_calls Out
    (fst (cmd sample_platform (Tup ["echo"; "hello"]) false false 1 None None None
              "select" no_kwargs sample_sched)) =
    [Write Out ("hello" ++ nl); Flush Out] /\
  sys_stdout_text
    (fst (cmd sample_platform (Tup ["echo"; "hello"]) false false 1 None None None
              "select" no_kwargs sample_sched)) = "hello" ++ nl.
Proof.
  destruct (cmd_tee_echoes_output sample_platform (Tup ["echo"; "hello"])
              false false 1 None None None "select" no_kwargs sample_sched
              (inr ["echo"; "hello"]) hello
              eq_refl eq_refl eq_refl
              ltac:(lia)
              eq_refl eq_refl eq_refl eq_refl)
    as (Hev & Hcalls & _ & Htext & _).
  exact (conj Hev (conj Hcalls Htext)).
Defined.

Lemma bind_ret {A B : Type} (a : A) (k : A -> M B) : bind (ret a) k = k a.
Proof. unfold bind, ret. destruct (k a). reflexivity. Qed.

Lemma bind_emit_ret {A B : Type} (ev : event) (a : A) (k : A -> M B) :
  bind (bind (emit ev) (fun _ => ret a)) k = (ev :: fst (k a), snd (k a)).
Proof. unfold bind, emit, ret. destruct (k a). reflexivity. Qed.

(** X12. The deprecated keyword argument [detatch] replaces [detach]:
    a call with [detatch=d] runs exactly as the call with [detach=d]
    and no [detatch], after one deprecation warning. *)
Theorem cmd_detatch_is_detach (sys : platform) (cmd_arg : command)
    (shell detach d : bool) (verbose : Z) (tee : option bool)
    (cwd env : option string) (tee_backend : string) (others : list string)
    (sched : schedule) :
  let old := cmd sys cmd_arg shell detach verbose tee cwd env tee_backend
                 {| detatch := Some d; unknown := others |} sched in
  let new := cmd sys cmd_arg shell d verbose tee cwd env tee_backend
                 {| detatch := None; unknown := others |} sched in
  snd old = snd new /\
  exists msg : string, fst old = Warn msg :: fst new.
Proof.
  unfold cmd. cbn [detatch unknown].
  rewrite bind_emit_ret, bind_ret. cbn [fst snd]. eauto.
Qed.

(** X13. A command given as a text that [shlex.split] cannot split makes
    [cmd] raise [ValueError] without calling the factory, when it runs
    without a shell on a platform other than win32; with a shell the text
    is passed on as it is and [shlex.split] is not consulted. *)
Theorem cmd_unsplittable_text (sys : platform) (text : string)
    (detach : bool) (verbose : Z) (tee : option bool)
    (cwd env : option string) (tee_backend : string) (kw : kwargs)
    (sched : schedule) :
  shlex_split sys text = None ->
  unknown kw = [] ->
  (win32 sys = false ->
   exists (trace : list event) (msg : string),
     cmd sys (Text text) false detach verbose tee cwd env tee_backend kw sched =
       (trace, Raised (ValueError msg)) /\
     ~ In Launch trace) /\
  cmd_args sys (Text text) true = ret (inl text).
Proof.
  intros Hsplit Hkw. split; [|reflexivity].
  intros Hwin. unfold cmd, cmd_args. cbn [command_text orb].
  rewrite Hkw, Hwin, Hsplit.
  destruct (detatch kw);
    cbn [bind ret raise emit when app];
    (eexists; eexists; split; [reflexivity|]);
    simpl; intuition discriminate.
Qed.

Lemma cmd_unsplittable_text_witness :
  exists (trace : list event) (msg : string),
    cmd no_split_platform (Text "echo 'hello") false false 3 None None None "auto"
        no_kwargs sample_sched = (trace, Raised (ValueError msg)) /\
    ~ In Launch trace.
Proof.
  exact (proj1 (cmd_unsplittable_text no_split_platform "echo 'hello" false 3
                  None None None "auto" no_kwargs sample_sched eq_refl eq_refl)
           eq_refl).
Defined.

(** X14. A keyword argument other than the deprecated [detatch] makes
    [cmd] raise before it parses the command, prints anything or calls
    the factory: at most the deprecation warning for [detatch] has been
    given. *)
Theorem cmd_unknown_kwargs (sys : platform) (cmd_arg : command)
    (shell detach : bool) (verbose : Z) (tee : option bool)
    (cwd env : option string) (tee_backend : string) (kw : kwargs)
    (sched : schedule) :
  unknown kw <> [] ->
  exists (trace : list event) (e : exn),
    cmd sys cmd_arg shell detach verbose tee cwd env tee_backend kw sched =
      (trace, Raised e) /\
    Forall (fun ev => exists msg, ev = Warn msg) trace.
Proof.
  intros Hkw. unfold cmd.
  destruct (unknown kw) as [|key keys]; [congruence|].
  destruct (detatch kw); cbn [bind ret raise emit app];
    (eexists; eexists; split; [reflexivity|]);
    repeat constructor; eauto.
Qed.

Lemma cmd_unknown_kwargs_witness :
  exists (trace : list event) (e : exn),
    cmd sample_platform (Text "echo hello") false false 3 None None None "auto"
        {| detatch := Some true; unknown := ["verbos"] |} sample_sched =
      (trace, Raised e) /\
    Forall (fun ev => exists msg, ev = Warn msg) trace.
Proof.
  apply (cmd_unknown_kwargs sample_platform (Text "echo hello") false false 3
           None None None "auto"
           {| detatch := Some true; unknown := ["verbos"] |} sample_sched).
  discriminate.
Defined.

(** ** Further properties of the line source *)

Lemma readline_single (stream line rest : string) :
  readline stream = (line, rest) -> readline line = (line, "").
Proof.
  revert line rest. induction stream as [|c s IH]; intros line rest H; simpl in H.
  - injection H as <- <-. reflexivity.
  - destruct (Ascii.eqb c newline) eqn:Ec.
    + injection H as <- <-. simpl. rewrite Ec. reflexivity.
    + destruct (readline s) as [l r] eqn:E. injection H as <- <-.
      simpl. rewrite Ec, (IH l r eq_refl). reflexivity.
Qed.

(** X15. Every line [_textio_iterlines] yields is one line: read back
    with [readline] it comes out whole, so it holds no newline before
    its last character, and it alone is what iterating over it yields. *)
Theorem textio_iterlines_single_lines (stream : string) :
  Forall (fun line => readline line = (line, "") /\
                      fst (_textio_iterlines line) = [line])
         (fst (_textio_iterlines stream)).
Proof.
  induction stream as [|stream line rest E Hne IH] using stream_ind.
  - constructor.
  - rewrite (iterlines_cons _ _ _ E Hne). constructor; [|exact IH].
    pose proof (readline_single _ _ _ E) as Hs. split; [exact Hs|].
    rewrite (iterlines_cons _ _ _ Hs Hne). reflexivity.
Qed.

(** X16. Iterating over a text made of a complete part (empty or ended
    by a newline) followed by more text yields the lines of the first
    part followed by the lines of the second: lines never straddle the
    end of a complete part. *)
Theorem textio_iterlines_app (body more : string) :
  complete body ->
  fst (_textio_iterlines (body ++ more)) =
    (fst (_textio_iterlines body) ++ fst (_textio_iterlines more))%list.
Proof.
  induction body as [|body line rest E Hne IH] using stream_ind; intros Hc.
  - reflexivity.
  - pose proof (iterlines_terminated body Hc) as Ht.
    rewrite (iterlines_cons _ _ _ E Hne) in Ht. simpl fst in Ht.
    inversion Ht as [|? ? Hl _]; subst.
    pose proof (last_newline_has_newline _ Hl) as Hnl.
    rewrite (iterlines_cons _ _ _ (readline_more _ _ _ more E Hnl) Hne).
    rewrite (iterlines_cons _ _ _ E Hne). simpl fst.
    rewrite IH; [reflexivity|].
    pose proof (readline_app _ _ _ E) as Hs. unfold complete in *.
    rewrite <- Hs, last_char_app in Hc. destruct rest; auto.
Qed.

Lemma textio_iterlines_app_witness :
  fst (_textio_iterlines (("a" ++ nl ++ nl) ++ ("b" ++ nl ++ "c"))) =
    ["a" ++ nl; nl; "b" ++ nl; "c"].
Proof.
  exact (textio_iterlines_app ("a" ++ nl ++ nl) ("b" ++ nl ++ "c")
           (or_intror eq_refl)).
Defined.
